(** * SmartMemoryPool: a fixed-capacity object pool with self-returning handles

    Shallow embedding of [inc/SmartMemoryPool.hh] (namespace [jshellen]) and
    the properties of its sequential behaviour.

    The program state is a [World]: the table of the pools that are alive
    (each with its slab, free-list head and counter) and the history of the
    side effects performed so far.  Every member function is a computation
    in the monad [M], which threads the world and yields [None] where the
    C++ program has no defined behaviour (null or out-of-slab dereference,
    use of a destroyed pool, reading a link out of a slot that holds a
    value, signed overflow). *)

From Stdlib Require Import ZArith Lia.
From stdpp Require Import base decidable option list gmap.

(** ** Addresses *)

(** The address of [mPool[slot]] in the slab owned by pool [slab].  A pool
    is identified by its identity token (the cell behind [mThisPtr]). *)
Record addr := Addr { slab : nat; slot : nat }.

#[global] Instance addr_eq_dec : EqDecision addr.
Proof. solve_decision. Defined.

(** A C++ pointer: [None] is [nullptr]. *)
Abbreviation ptr := (option addr).

(** [template<typename B> struct SmartDeleter]: its only member is the weak
    reference [mParentPool] to the identity token of the parent pool. *)
Record SmartDeleter := { mParentPool : nat }.

(** [std::unique_ptr<value_type, SmartDeleter<BaseType>>]. *)
Record unique_ptr := { get : ptr; get_deleter : SmartDeleter }.

(** [unique_ptr::release()]: hands the stored pointer out and leaves the
    handle null. *)
Definition unique_ptr_release (u : unique_ptr) : ptr * unique_ptr :=
  (get u, {| get := None; get_deleter := get_deleter u |}).

(** [INT_MAX] of the [int] deduced for [auto i = 1], and the modulus of
    [uint64_t]. *)
Definition INT_MAX : Z := 2 ^ 31 - 1.
Definition UINT64_MOD : Z := 2 ^ 64.

(** What the pool needs to know of the template argument [BaseType]:
    whether a destructor call made through a [BaseType*] runs the
    destructor of [value_type].  It does when the destructor of [BaseType]
    is virtual or [BaseType] is [value_type] itself; otherwise only the
    destructor of the base part runs. *)
Class BaseType := { dtor_reaches_value_type : bool }.

Section Pool.

(** [value_type]: the values held in the slots.  [construct v] stands for
    [construct(args...)] where [v] is the value the constructor builds. *)
Context {V : Type} {Base : BaseType}.

(** ** Data model *)

(** [union MemoryBlock { aligned_storage_t<...> mStorage; MemoryBlock* mNext; }].
    [Zeroed] is a block as [std::make_unique<MemoryBlock[]>] leaves it
    (value-initialised, all bits zero); [mStorage (Some v)] holds a live
    value, [mStorage None] is storage whose value has been destroyed. *)
Inductive MemoryBlock :=
| Zeroed
| mNext (next : ptr)
| mStorage (v : option V).

(** The data members of [SmartMemoryPool].  [mThisPtr] is the key under
    which the pool is registered in the world. *)
Record SmartMemoryPool := {
  mCapacity : Z;
  mPool : list MemoryBlock;
  mNextFree : ptr;
  mAvailable : Z
}.

(** Side effects, in the order in which they take place: the exchanges on
    [mNextFree] that succeeded, the updates of [mAvailable], the calls of
    the constructor and of the destructor of [value_type], and the
    destructor calls that run for the [BaseType] part of a value only. *)
Inductive Event :=
| Ev_compare_exchange (this : nat) (expected desired : ptr)
| Ev_fetch_add (this : nat)
| Ev_fetch_sub (this : nat)
| Ev_construct (a : addr) (v : V)
| Ev_destroy (a : addr) (v : V)
| Ev_destroy_base (a : addr) (v : V).

Record World := {
  pools : gmap nat SmartMemoryPool;
  next_pool : nat;
  trace : list Event
}.

Definition empty_world : World :=
  {| pools := ∅; next_pool := 0; trace := [] |}.

(** ** The monad of member functions *)

Definition M (A : Type) : Type := World → option (A * World).

Definition ret {A} (a : A) : M A := λ w, Some (a, w).

Definition bind {A B} (m : M A) (k : A → M B) : M B :=
  λ w, match m w with
       | Some (a, w') => k a w'
       | None => None
       end.

Definition undefined {A} : M A := λ _, None.

Local Notation "x <- m ;; k" := (bind m (λ x, k))
  (at level 100, m at next level, right associativity).
Local Notation "m ;; k" := (bind m (λ _, k))
  (at level 100, right associativity).

Definition get_pool (this : nat) : M SmartMemoryPool :=
  λ w, match pools w !! this with
       | Some p => Some (p, w)
       | None => None
       end.

Definition put_pool (this : nat) (p : SmartMemoryPool) : M unit :=
  λ w, Some (tt, {| pools := <[this := p]> (pools w);
                    next_pool := next_pool w;
                    trace := trace w |}).

Definition emit (e : Event) : M unit :=
  λ w, Some (tt, {| pools := pools w;
                    next_pool := next_pool w;
                    trace := trace w ++ [e] |}).

(** The world in which pool [this] has state [p] and the events [es] have
    been added to the history. *)
Definition evolve (this : nat) (p : SmartMemoryPool) (es : list Event)
    (w : World) : World :=
  {| pools := <[this := p]> (pools w);
     next_pool := next_pool w;
     trace := trace w ++ es |}.

Definition deref (p : ptr) : M addr :=
  match p with
  | Some a => ret a
  | None => undefined
  end.

Definition set_mPool (blocks : list MemoryBlock) (p : SmartMemoryPool) :=
  {| mCapacity := mCapacity p; mPool := blocks;
     mNextFree := mNextFree p; mAvailable := mAvailable p |}.

Definition set_mNextFree (head : ptr) (p : SmartMemoryPool) :=
  {| mCapacity := mCapacity p; mPool := mPool p;
     mNextFree := head; mAvailable := mAvailable p |}.

Definition set_mAvailable (n : Z) (p : SmartMemoryPool) :=
  {| mCapacity := mCapacity p; mPool := mPool p;
     mNextFree := mNextFree p; mAvailable := n |}.

(** Access to the block at an address: the slab must still exist and the
    slot must lie inside it. *)
Definition load_block (a : addr) : M MemoryBlock :=
  p <- get_pool (slab a) ;;
  match mPool p !! slot a with
  | Some b => ret b
  | None => undefined
  end.

Definition store_block (a : addr) (b : MemoryBlock) : M unit :=
  p <- get_pool (slab a) ;;
  if decide (slot a < length (mPool p))
  then put_pool (slab a) (set_mPool (<[slot a := b]> (mPool p)) p)
  else undefined.

(** [item->mNext] as an rvalue.  A zeroed block reads as [nullptr]; a block
    that holds a value has no link to read. *)
Definition link_of (b : MemoryBlock) : option ptr :=
  match b with
  | Zeroed => Some None
  | mNext n => Some n
  | mStorage _ => None
  end.

Definition read_mNext (item : addr) : M ptr :=
  b <- load_block item ;;
  match link_of b with
  | Some n => ret n
  | None => undefined
  end.

(** [item->mNext = n]. *)
Definition write_mNext (item : addr) (n : ptr) : M unit :=
  store_block item (mNext n).

(** ** Atomic members *)

(** [mNextFree.load()]. *)
Definition mNextFree_load (this : nat) : M ptr :=
  p <- get_pool this ;; ret (mNextFree p).

(** [mNextFree.compare_exchange_strong(expected, desired)]: returns the
    success flag and the value [expected] holds afterwards. *)
Definition compare_exchange_strong (this : nat) (expected desired : ptr)
  : M (bool * ptr) :=
  p <- get_pool this ;;
  if decide (mNextFree p = expected)
  then put_pool this (set_mNextFree desired p) ;;
       emit (Ev_compare_exchange this expected desired) ;;
       ret (true, expected)
  else ret (false, mNextFree p).

(** [mAvailable++] and [mAvailable--] on a [std::atomic<uint64_t>]. *)
Definition mAvailable_incr (this : nat) : M unit :=
  p <- get_pool this ;;
  put_pool this (set_mAvailable ((mAvailable p + 1) mod UINT64_MOD) p) ;;
  emit (Ev_fetch_add this).

Definition mAvailable_decr (this : nat) : M unit :=
  p <- get_pool this ;;
  put_pool this (set_mAvailable ((mAvailable p - 1) mod UINT64_MOD) p) ;;
  emit (Ev_fetch_sub this).

(** ** Construction and destruction of the pool *)

(** The loop [for (auto i = 1; i < mCapacity; i++) mPool[i-1].mNext = &mPool[i];].
    [i] is an [int]; it is converted to [uint64_t] for the comparison and
    its increment is undefined at [INT_MAX]. *)
Fixpoint link_blocks (fuel : nat) (this : nat) (capacity : Z) (i : Z)
    (blocks : list MemoryBlock) : option (list MemoryBlock) :=
  if (i mod UINT64_MOD <? capacity)%Z then
    match fuel with
    | O => None
    | S fuel' =>
        if decide (Z.to_nat (i - 1) < length blocks) then
          let blocks' :=
            <[Z.to_nat (i - 1) := mNext (Some (Addr this (Z.to_nat i)))]> blocks in
          if (i <? INT_MAX)%Z
          then link_blocks fuel' this capacity (i + 1)%Z blocks'
          else None
        else None
    end
  else Some blocks.

(** [SmartMemoryPool(uint64_t capacity)].  The slab is taken to be
    obtained: an allocation that throws is not followed, and [None] says
    no more than that no pool is constructed. *)
Definition SmartMemoryPool_ctor (capacity : Z) : M nat :=
  λ w,
    let this := next_pool w in
    match link_blocks (Z.to_nat capacity) this capacity 1
            (replicate (Z.to_nat capacity) Zeroed) with
    | Some blocks =>
        Some (this,
              {| pools := <[this := {| mCapacity := capacity;
                                       mPool := blocks;
                                       mNextFree := Some (Addr this 0);
                                       mAvailable := capacity |}]> (pools w);
                 next_pool := S this;
                 trace := trace w |})
    | None => None
    end.

(** [~SmartMemoryPool() = default]: the identity token and the slab go
    away; the blocks have no destructor of their own. *)
Definition SmartMemoryPool_dtor (this : nat) : M unit :=
  get_pool this ;;
  λ w, Some (tt, {| pools := delete this (pools w);
                    next_pool := next_pool w;
                    trace := trace w |}).

(** ** allocate and deallocate *)

(** [while (item != nullptr && !mNextFree.compare_exchange_strong(item, item->mNext)){}],
    yielding the final [item].  [retries] bounds the failed exchanges the
    loop is followed through; a loop that has not finished by then has no
    result. *)
Fixpoint allocate_spin (retries : nat) (this : nat) (item : ptr) : M ptr :=
  match item with
  | None => ret None
  | Some i =>
      next <- read_mNext i ;;
      r <- compare_exchange_strong this item next ;;
      if r.1 then ret item
      else match retries with
           | O => undefined
           | S n => allocate_spin n this r.2
           end
  end.

(** [allocate()].  The result is [None] for [std::nullopt] and the address
    of the claimed block otherwise.  In a sequential run the exchange that
    follows the load succeeds at once, see [allocate_spin_retries]. *)
Definition allocate (this : nat) : M ptr :=
  item <- mNextFree_load this ;;
  allocate_spin 0 this item.

(** [while (!mNextFree.compare_exchange_strong(item->mNext, item)){}]: on
    failure the exchange stores the head it found into [item->mNext]. *)
Fixpoint deallocate_spin (retries : nat) (this : nat) (item : addr) : M unit :=
  expected <- read_mNext item ;;
  r <- compare_exchange_strong this expected (Some item) ;;
  if r.1 then ret tt
  else write_mNext item r.2 ;;
       match retries with
       | O => undefined
       | S n => deallocate_spin n this item
       end.

(** [deallocate(BaseType* p)].  Here too the first exchange succeeds in a
    sequential run, see [deallocate_spin_retries]. *)
Definition deallocate (this : nat) (p : ptr) : M unit :=
  head <- mNextFree_load this ;;
  item <- deref p ;;
  write_mNext item head ;;
  deallocate_spin 0 this item ;;
  mAvailable_incr this.

(** ** Values in the slots *)

(** [new (mem) value_type(args...)]. *)
Definition placement_new (mem : addr) (v : V) : M unit :=
  store_block mem (mStorage (Some v)) ;;
  emit (Ev_construct mem v).

(** A destructor call on the value that lives at [p], recorded as [call]:
    the lifetime of the value ends.  Destroying what is not a live value
    is undefined. *)
Definition destroy_as (call : addr → V → Event) (p : ptr) : M unit :=
  a <- deref p ;;
  b <- load_block a ;;
  match b with
  | mStorage (Some v) => store_block a (mStorage None) ;; emit (call a v)
  | _ => undefined
  end.

(** [p->~value_type()]. *)
Definition destroy (p : ptr) : M unit := destroy_as Ev_destroy p.

(** [ptr->~B()] with [B = BaseType]: the destructor of [value_type] if the
    call reaches it, the destructor of the base part otherwise. *)
Definition Ev_destroy_B (a : addr) (v : V) : Event :=
  if dtor_reaches_value_type then Ev_destroy a v else Ev_destroy_base a v.

Definition destroy_B (p : ptr) : M unit := destroy_as Ev_destroy_B p.

(** ** construct, destruct, available *)

(** [std::weak_ptr(mThisPtr)]. *)
Definition weak_this (this : nat) : SmartDeleter := {| mParentPool := this |}.

(** [construct(Args&&... args)]. *)
Definition construct (this : nat) (v : V) : M unique_ptr :=
  maybe_mem <- allocate this ;;
  match maybe_mem with
  | None => ret {| get := None; get_deleter := weak_this this |}
  | Some mem =>
      mAvailable_decr this ;;
      placement_new mem v ;;
      ret {| get := Some mem; get_deleter := weak_this this |}
  end.

(** [mParentPool.lock()]: the token is alive exactly as long as its pool. *)
Definition lock (d : SmartDeleter) : M (option nat) :=
  λ w, Some (match pools w !! mParentPool d with
             | Some _ => Some (mParentPool d)
             | None => None
             end, w).

(** [SmartDeleter::operator()(B* ptr)]. *)
Definition SmartDeleter_call (d : SmartDeleter) (p : ptr) : M unit :=
  pool <- lock d ;;
  match pool with
  | Some pool => destroy_B p ;; deallocate pool p
  | None => ret tt
  end.

(** [~unique_ptr()] (and [reset()]): the deleter is called on a non-null
    stored pointer only. *)
Definition unique_ptr_dtor (u : unique_ptr) : M unit :=
  match get u with
  | Some _ => SmartDeleter_call (get_deleter u) (get u)
  | None => ret tt
  end.

(** [destruct(DerivedType* p)]. *)
Definition destruct_ptr (this : nat) (p : ptr) : M unit :=
  match p with
  | None => ret tt
  | Some _ => destroy p ;; deallocate this p
  end.

(** [destruct(std::unique_ptr<...> p)]: the by-value parameter [p] is
    destroyed when the call returns. *)
Definition destruct_unique_ptr (this : nat) (p : unique_ptr) : M unit :=
  let t_ptr := (unique_ptr_release p).1 in
  let p' := (unique_ptr_release p).2 in
  destruct_ptr this t_ptr ;;
  unique_ptr_dtor p'.

(** [available()]. *)
Definition available (this : nat) : M Z :=
  p <- get_pool this ;; ret (mAvailable p).


(** ** Counting events *)

Definition is_destroy_of (a : addr) (e : Event) : bool :=
  match e with
  | Ev_destroy a' _ | Ev_destroy_base a' _ => bool_decide (a' = a)
  | _ => false
  end.

(** A successful exchange that makes [a] the head of the free list. *)
Definition is_push_of (this : nat) (a : addr) (e : Event) : bool :=
  match e with
  | Ev_compare_exchange this' _ desired =>
      bool_decide (this' = this) && bool_decide (desired = Some a)
  | _ => false
  end.

Definition count_events (f : Event → bool) (es : list Event) : nat :=
  length (List.filter f es).

(** ** Pool states reached by the operations *)

(** Slot [a] pushed on the free list and counted. *)
Definition pushed (a : addr) (p : SmartMemoryPool) : SmartMemoryPool :=
  {| mCapacity := mCapacity p;
     mPool := <[slot a := mNext (mNextFree p)]> (mPool p);
     mNextFree := Some a;
     mAvailable := (mAvailable p + 1) mod UINT64_MOD |}.

(** Slot [a] popped, with [next] the new head, counted, and holding [v]. *)
Definition claimed (a : addr) (next : ptr) (v : V) (p : SmartMemoryPool)
  : SmartMemoryPool :=
  {| mCapacity := mCapacity p;
     mPool := <[slot a := mStorage (Some v)]> (mPool p);
     mNextFree := next;
     mAvailable := (mAvailable p - 1) mod UINT64_MOD |}.

(** The two handles [construct] can return. *)
Definition null_handle (this : nat) : unique_ptr :=
  {| get := None; get_deleter := weak_this this |}.

Definition handle_at (this : nat) (i : nat) : unique_ptr :=
  {| get := Some (Addr this i); get_deleter := weak_this this |}.

(** ** The free list and the handles in circulation *)

(** The slots met when the free list of pool [this] is walked from [head]
    through the links, as long as it stays inside the slab. *)
Fixpoint free_list (fuel : nat) (this : nat) (blocks : list MemoryBlock)
    (head : ptr) : option (list nat) :=
  match head with
  | None => Some []
  | Some a =>
      match fuel with
      | O => None
      | S fuel' =>
          if decide (slab a = this) then
            match blocks !! slot a with
            | Some b =>
                match link_of b with
                | Some next =>
                    match free_list fuel' this blocks next with
                    | Some l => Some (slot a :: l)
                    | None => None
                    end
                | None => None
                end
            | None => None
            end
          else None
      end
  end.

Definition free_slots (this : nat) (w : World) : option (list nat) :=
  match pools w !! this with
  | Some p => free_list (S (length (mPool p))) this (mPool p) (mNextFree p)
  | None => None
  end.

Inductive chain (this : nat) (blocks : list MemoryBlock)
  : ptr → list nat → Prop :=
| chain_nil : chain this blocks None []
| chain_cons i b next l :
    blocks !! i = Some b →
    link_of b = Some next →
    chain this blocks next l →
    chain this blocks (Some (Addr this i)) (i :: l).

(** The slots held through a list of handles: null handles hold none. *)
Definition claimed_slots (hs : list unique_ptr) : list nat :=
  omap (λ h, slot <$> get h) hs.

(** A sequential client of one pool.  It keeps the handles it was given;
    [Release k] lets the [k]-th of them go out of scope, [Destruct k]
    passes it to [destruct]. *)
Inductive op :=
| Construct (v : V)
| Release (k : nat)
| Destruct (k : nat).

Definition step (this : nat) (o : op) (hs : list unique_ptr)
  : M (list unique_ptr) :=
  match o with
  | Construct v => h <- construct this v ;; ret (hs ++ [h])
  | Release k =>
      match hs !! k with
      | Some h => unique_ptr_dtor h ;; ret (delete k hs)
      | None => ret hs
      end
  | Destruct k =>
      match hs !! k with
      | Some h => destruct_unique_ptr this h ;; ret (delete k hs)
      | None => ret hs
      end
  end.

Fixpoint run (this : nat) (ops : list op) (hs : list unique_ptr)
  : M (list unique_ptr) :=
  match ops with
  | [] => ret hs
  | o :: ops' => hs' <- step this o hs ;; run this ops' hs'
  end.

(** A handle of pool [this] in circulation: its deleter is bound to the
    pool and, unless it is null, it owns a live value in the slab. *)
Definition handle_ok (this : nat) (blocks : list MemoryBlock)
    (h : unique_ptr) : Prop :=
  get_deleter h = weak_this this ∧
  ∀ a, get h = Some a →
       slab a = this ∧ ∃ v, blocks !! slot a = Some (mStorage (Some v)).

(** What ties a pool of [K] slots to the handles [hs] of its client:
    [free] is its free list, and every slot is either on it or held by
    exactly one handle, alive. *)
Record wf_pool (this : nat) (K : nat) (free : list nat)
    (hs : list unique_ptr) (p : SmartMemoryPool) : Prop := {
  wf_length : length (mPool p) = K;
  wf_chain : chain this (mPool p) (mNextFree p) free;
  wf_nodup : NoDup (free ++ claimed_slots hs);
  wf_count : length free + length (claimed_slots hs) = K;
  wf_handles : Forall (handle_ok this (mPool p)) hs;
  wf_avail : mAvailable p = Z.of_nat (length free);
  wf_small : (Z.of_nat K < UINT64_MOD)%Z
}.

Definition pool_inv (this : nat) (K : Z) (free : list nat)
    (hs : list unique_ptr) (w : World) : Prop :=
  ∃ p, pools w !! this = Some p ∧ mCapacity p = K ∧
       wf_pool this (Z.to_nat K) free hs p.

(** ** The free list as a stack *)

(** What a client's operation does to the stack of free slots and to the
    handles it holds, when the free list is read as a plain stack:
    [construct] pops, a release of a non-null handle pushes. *)
Definition stack_step (this : nat) (o : op)
    (st : list nat * list unique_ptr) : list nat * list unique_ptr :=
  match o with
  | Construct _ =>
      match st.1 with
      | [] => ([], st.2 ++ [null_handle this])
      | i :: free => (free, st.2 ++ [handle_at this i])
      end
  | Release k | Destruct k =>
      match st.2 !! k with
      | Some h =>
          (match get h with
           | Some a => slot a :: st.1
           | None => st.1
           end, delete k st.2)
      | None => st
      end
  end.

Fixpoint stack_run (this : nat) (ops : list op)
    (st : list nat * list unique_ptr) : list nat * list unique_ptr :=
  match ops with
  | [] => st
  | o :: ops' => stack_run this ops' (stack_step this o st)
  end.

(** Calls of the constructor and of the destructor in a history. *)
Definition is_construct (e : Event) : bool :=
  match e with
  | Ev_construct _ _ => true
  | _ => false
  end.

Definition is_destroy (e : Event) : bool :=
  match e with
  | Ev_destroy _ _ | Ev_destroy_base _ _ => true
  | _ => false
  end.

(** The handles of a client go out of scope one after the other. *)
Fixpoint drop_all (hs : list unique_ptr) : M unit :=
  match hs with
  | [] => ret tt
  | h :: hs' => unique_ptr_dtor h ;; drop_all hs'
  end.

End Pool.

Arguments MemoryBlock : clear implicits.
Arguments SmartMemoryPool : clear implicits.
Arguments Event : clear implicits.
Arguments World : clear implicits.
Arguments M : clear implicits.

(** ** Scenarios on a pool of integers *)

(** Unless said otherwise the scenarios are run with a [BaseType] whose
    destructor is virtual; [plain_base] is one whose destructor is not. *)
#[global] Instance polymorphic_base : BaseType :=
  {| dtor_reaches_value_type := true |}.


(** A pool of one slot is built, a value is constructed in it and the
    pool is destroyed while the handle is still out. *)
Definition orphan_scenario : M Z unique_ptr :=
  bind (SmartMemoryPool_ctor 1) (λ this,
  bind (construct this 5%Z) (λ h,
  bind (SmartMemoryPool_dtor this) (λ _,
  ret h))).

Definition orphan_handle : unique_ptr :=
  {| get := Some (Addr 0 0); get_deleter := {| mParentPool := 0 |} |}.

Definition orphan_world : World Z :=
  {| pools := ∅;
     next_pool := 1;
     trace := [Ev_compare_exchange 0 (Some (Addr 0 0)) None;
               Ev_fetch_sub 0;
               Ev_construct (Addr 0 0) 5%Z] |}.

Definition one_pool (p : SmartMemoryPool Z) (es : list (Event Z)) : World Z :=
  {| pools := {[0 := p]}; next_pool := 1; trace := es |}.

(** A pool of two slots as its constructor leaves it. *)
Definition fresh_pair : SmartMemoryPool Z :=
  {| mCapacity := 2;
     mPool := [mNext (Some (Addr 0 1)); Zeroed];
     mNextFree := Some (Addr 0 0);
     mAvailable := 2 |}.

(** The same pool after [construct(5)] and [construct(7)]. *)
Definition full_pair : SmartMemoryPool Z :=
  {| mCapacity := 2;
     mPool := [mStorage (Some 5%Z); mStorage (Some 7%Z)];
     mNextFree := None;
     mAvailable := 0 |}.

Definition full_pair_trace : list (Event Z) :=
  [Ev_compare_exchange 0 (Some (Addr 0 0)) (Some (Addr 0 1));
   Ev_fetch_sub 0;
   Ev_construct (Addr 0 0) 5%Z;
   Ev_compare_exchange 0 (Some (Addr 0 1)) None;
   Ev_fetch_sub 0;
   Ev_construct (Addr 0 1) 7%Z].

(** A second pool of two slots, built while the first one is alive, and
    the history of [construct(5)] and [construct(7)] on it. *)
Definition second_fresh : SmartMemoryPool Z :=
  {| mCapacity := 2;
     mPool := [mNext (Some (Addr 1 1)); Zeroed];
     mNextFree := Some (Addr 1 0);
     mAvailable := 2 |}.

Definition second_trace : list (Event Z) :=
  [Ev_compare_exchange 1 (Some (Addr 1 0)) (Some (Addr 1 1));
   Ev_fetch_sub 1;
   Ev_construct (Addr 1 0) 5%Z;
   Ev_compare_exchange 1 (Some (Addr 1 1)) None;
   Ev_fetch_sub 1;
   Ev_construct (Addr 1 1) 7%Z].

Definition two_pools (p0 p1 : SmartMemoryPool Z) (es : list (Event Z))
  : World Z :=
  {| pools := <[1 := p1]> {[0 := p0]}; next_pool := 2; trace := es |}.

(** A pool of three slots, all of them claimed. *)
Definition full_triple : SmartMemoryPool Z :=
  {| mCapacity := 3;
     mPool := [mStorage (Some 1%Z); mStorage (Some 2%Z); mStorage (Some 3%Z)];
     mNextFree := None;
     mAvailable := 0 |}.

(** * Properties *)

Section Properties.

Context {V : Type} {Base : BaseType}.

Implicit Types (v : V) (w : World V) (p : SmartMemoryPool V).
Implicit Types (b : MemoryBlock V) (blocks : list (MemoryBlock V)).
Implicit Types (es : list (Event V)).

Local Notation "x <- m ;; k" := (bind m (λ x, k))
  (at level 100, m at next level, right associativity).
Local Notation "m ;; k" := (bind m (λ _, k))
  (at level 100, right associativity).

(** ** Basic facts about the primitives *)

Lemma evolve_evolve this p1 p2 es1 es2 w :
  evolve this p2 es2 (evolve this p1 es1 w) = evolve this p2 (es1 ++ es2) w.
Proof.
  unfold evolve; simpl. by rewrite insert_insert_eq, app_assoc.
Qed.

Lemma evolve_lookup this p es w : pools (evolve this p es w) !! this = Some p.
Proof. apply lookup_insert_eq. Qed.

Lemma put_pool_evolve this p w :
  put_pool this p w = Some (tt, evolve this p [] w).
Proof. unfold put_pool, evolve. by rewrite app_nil_r. Qed.

Lemma store_block_spec a b p w :
  pools w !! slab a = Some p →
  slot a < length (mPool p) →
  store_block a b w
  = Some (tt, evolve (slab a) (set_mPool (<[slot a := b]> (mPool p)) p) [] w).
Proof.
  intros Hp Hlt. unfold store_block, bind, get_pool. rewrite Hp.
  rewrite decide_True by done. apply put_pool_evolve.
Qed.

Lemma read_mNext_spec a p b n w :
  pools w !! slab a = Some p →
  mPool p !! slot a = Some b →
  link_of b = Some n →
  read_mNext a w = Some (n, w).
Proof.
  intros Hp Hb Hn. unfold read_mNext, load_block, bind, get_pool.
  rewrite Hp; simpl. rewrite Hb; simpl. by rewrite Hn.
Qed.

Lemma compare_exchange_strong_success this p desired w :
  pools w !! this = Some p →
  compare_exchange_strong this (mNextFree p) desired w
  = Some ((true, mNextFree p),
          evolve this (set_mNextFree desired p)
            [Ev_compare_exchange this (mNextFree p) desired] w).
Proof.
  intros Hp. unfold compare_exchange_strong, bind, get_pool. rewrite Hp.
  rewrite decide_True by done. reflexivity.
Qed.

Lemma mAvailable_incr_spec this p w :
  pools w !! this = Some p →
  mAvailable_incr this w
  = Some (tt, evolve this
                (set_mAvailable ((mAvailable p + 1) mod UINT64_MOD) p)
                [Ev_fetch_add this] w).
Proof.
  intros Hp. unfold mAvailable_incr, bind, get_pool. by rewrite Hp.
Qed.

Lemma mAvailable_decr_spec this p w :
  pools w !! this = Some p →
  mAvailable_decr this w
  = Some (tt, evolve this
                (set_mAvailable ((mAvailable p - 1) mod UINT64_MOD) p)
                [Ev_fetch_sub this] w).
Proof.
  intros Hp. unfold mAvailable_decr, bind, get_pool. by rewrite Hp.
Qed.

Lemma bind_Some {A B} (m : M V A) (k : A → M V B) a w w' :
  m w = Some (a, w') → bind m k w = k a w'.
Proof. intros H. unfold bind. by rewrite H. Qed.

Lemma mNextFree_load_spec this p w :
  pools w !! this = Some p → mNextFree_load this w = Some (mNextFree p, w).
Proof. intros Hp. unfold mNextFree_load, bind, get_pool. by rewrite Hp. Qed.

(** ** What each member function does on a live pool *)

Lemma allocate_empty this p w :
  pools w !! this = Some p →
  mNextFree p = None →
  allocate this w = Some (None, w).
Proof.
  intros Hp Hhead. unfold allocate.
  erewrite bind_Some by by apply mNextFree_load_spec.
  by rewrite Hhead.
Qed.

Lemma allocate_pop this p a b next w :
  pools w !! this = Some p →
  mNextFree p = Some a →
  pools w !! slab a = Some p →
  mPool p !! slot a = Some b →
  link_of b = Some next →
  allocate this w
  = Some (Some a, evolve this (set_mNextFree next p)
                    [Ev_compare_exchange this (Some a) next] w).
Proof.
  intros Hp Hhead Hslab Hb Hnext. unfold allocate.
  erewrite bind_Some by by apply mNextFree_load_spec.
  rewrite Hhead; simpl.
  erewrite bind_Some by by eapply read_mNext_spec.
  rewrite <- Hhead.
  erewrite bind_Some by by apply compare_exchange_strong_success.
  reflexivity.
Qed.

Lemma deallocate_push this p a w :
  pools w !! this = Some p →
  slab a = this →
  slot a < length (mPool p) →
  deallocate this (Some a) w
  = Some (tt, evolve this (pushed a p)
                [Ev_compare_exchange this (mNextFree p) (Some a);
                 Ev_fetch_add this] w).
Proof.
  intros Hp <- Hlt. unfold deallocate.
  erewrite bind_Some by by apply mNextFree_load_spec.
  simpl. unfold ret at 1, bind at 1.
  unfold write_mNext.
  erewrite bind_Some by by apply store_block_spec.
  unfold deallocate_spin.
  set (p1 := set_mPool _ p).
  assert (Hp1 : ∀ es, pools (evolve (slab a) p1 es w) !! slab a = Some p1)
    by (intros; apply evolve_lookup).
  erewrite (bind_Some (bind _ _)); cycle 1.
  { erewrite bind_Some; cycle 1.
    { eapply read_mNext_spec;
        [apply Hp1 | by apply list_lookup_insert_eq | reflexivity]. }
    change (mNextFree p) with (mNextFree p1).
    erewrite bind_Some by by apply compare_exchange_strong_success.
    reflexivity. }
  erewrite mAvailable_incr_spec by apply evolve_lookup.
  by rewrite !evolve_evolve.
Qed.

Lemma destroy_as_live call a p v w :
  pools w !! slab a = Some p →
  mPool p !! slot a = Some (mStorage (Some v)) →
  destroy_as call (Some a) w
  = Some (tt, evolve (slab a)
                (set_mPool (<[slot a := mStorage None]> (mPool p)) p)
                [call a v] w).
Proof.
  intros Hp Hb. unfold destroy_as. simpl. unfold ret at 1, bind at 1.
  unfold load_block, bind at 1, bind at 1, get_pool. rewrite Hp; simpl.
  rewrite Hb; simpl.
  erewrite bind_Some; cycle 1.
  { apply store_block_spec; [done|]. by eapply lookup_lt_Some. }
  unfold emit, evolve; simpl. by rewrite app_nil_r.
Qed.

Lemma destroy_live a p v w :
  pools w !! slab a = Some p →
  mPool p !! slot a = Some (mStorage (Some v)) →
  destroy (Some a) w
  = Some (tt, evolve (slab a)
                (set_mPool (<[slot a := mStorage None]> (mPool p)) p)
                [Ev_destroy a v] w).
Proof. apply destroy_as_live. Qed.

Lemma construct_exhausted this p v w :
  pools w !! this = Some p →
  mNextFree p = None →
  construct this v w
  = Some ({| get := None; get_deleter := weak_this this |}, w).
Proof.
  intros Hp Hhead. unfold construct.
  by erewrite bind_Some by by eapply allocate_empty.
Qed.

Lemma construct_claim this p a b next v w :
  pools w !! this = Some p →
  mNextFree p = Some a →
  slab a = this →
  mPool p !! slot a = Some b →
  link_of b = Some next →
  construct this v w
  = Some ({| get := Some a; get_deleter := weak_this this |},
          evolve this (claimed a next v p)
            [Ev_compare_exchange this (Some a) next;
             Ev_fetch_sub this;
             Ev_construct a v] w).
Proof.
  intros Hp Hhead <- Hb Hnext. unfold construct.
  erewrite bind_Some by by eapply allocate_pop.
  cbv beta iota.
  erewrite bind_Some by (apply mAvailable_decr_spec, evolve_lookup).
  unfold placement_new.
  erewrite bind_Some; cycle 1.
  { erewrite bind_Some; cycle 1.
    { apply store_block_spec; [apply evolve_lookup|].
      simpl. by eapply lookup_lt_Some. }
    reflexivity. }
  unfold ret. rewrite !evolve_evolve. simpl.
  unfold evolve; simpl. by rewrite <- !app_assoc.
Qed.

(** The value at [a] is destroyed and its slot is given back to [this]. *)
Lemma destroy_as_deallocate call this p a v w :
  pools w !! this = Some p →
  slab a = this →
  mPool p !! slot a = Some (mStorage (Some v)) →
  bind (destroy_as call (Some a)) (λ _, deallocate this (Some a)) w
  = Some (tt, evolve this (pushed a p)
                [call a v;
                 Ev_compare_exchange this (mNextFree p) (Some a);
                 Ev_fetch_add this] w).
Proof.
  intros Hp Hslab Hb.
  erewrite bind_Some by (apply destroy_as_live; by rewrite ?Hslab).
  rewrite Hslab.
  erewrite deallocate_push; [|apply evolve_lookup|done|];
    [|simpl; rewrite length_insert; by eapply lookup_lt_Some].
  rewrite evolve_evolve. unfold pushed; simpl.
  by rewrite list_insert_insert_eq.
Qed.

Lemma destroy_deallocate this p a v w :
  pools w !! this = Some p →
  slab a = this →
  mPool p !! slot a = Some (mStorage (Some v)) →
  bind (destroy (Some a)) (λ _, deallocate this (Some a)) w
  = Some (tt, evolve this (pushed a p)
                [Ev_destroy a v;
                 Ev_compare_exchange this (mNextFree p) (Some a);
                 Ev_fetch_add this] w).
Proof. apply destroy_as_deallocate. Qed.

Lemma destroy_B_deallocate this p a v w :
  pools w !! this = Some p →
  slab a = this →
  mPool p !! slot a = Some (mStorage (Some v)) →
  bind (destroy_B (Some a)) (λ _, deallocate this (Some a)) w
  = Some (tt, evolve this (pushed a p)
                [Ev_destroy_B a v;
                 Ev_compare_exchange this (mNextFree p) (Some a);
                 Ev_fetch_add this] w).
Proof. apply destroy_as_deallocate. Qed.

Lemma lock_alive d p w :
  pools w !! mParentPool d = Some p → lock d w = Some (Some (mParentPool d), w).
Proof. intros Hp. unfold lock. by rewrite Hp. Qed.

Lemma lock_expired d w :
  pools w !! mParentPool d = None → lock d w = Some (None, w).
Proof. intros Hp. unfold lock. by rewrite Hp. Qed.

Lemma SmartDeleter_call_alive d p q w :
  pools w !! mParentPool d = Some p →
  SmartDeleter_call d q w
  = bind (destroy_B q) (λ _, deallocate (mParentPool d) q) w.
Proof.
  intros Hp. unfold SmartDeleter_call.
  by erewrite bind_Some by by eapply lock_alive.
Qed.

Lemma SmartDeleter_call_expired d q w :
  pools w !! mParentPool d = None →
  SmartDeleter_call d q w = Some (tt, w).
Proof.
  intros Hp. unfold SmartDeleter_call.
  by erewrite bind_Some by by eapply lock_expired.
Qed.

(** ** The constructor *)

Lemma link_blocks_spec this cap fuel :
  ∀ i blocks,
    (1 ≤ i ≤ cap)%Z →
    (cap ≤ INT_MAX)%Z →
    Z.to_nat cap - Z.to_nat i ≤ fuel →
    length blocks = Z.to_nat cap →
    ∃ blocks',
      link_blocks fuel this cap i blocks = Some blocks' ∧
      length blocks' = length blocks ∧
      (∀ j, Z.to_nat i - 1 ≤ j < Z.to_nat cap - 1 →
            blocks' !! j = Some (mNext (Some (Addr this (S j))))) ∧
      (∀ j, ¬ (Z.to_nat i - 1 ≤ j < Z.to_nat cap - 1) →
            blocks' !! j = blocks !! j).
Proof.
  induction fuel as [|fuel IH]; intros i blocks Hi Hcap Hfuel Hlen.
  - assert (i = cap) as -> by lia.
    simpl. unfold INT_MAX, UINT64_MOD in *.
    rewrite Z.mod_small, Z.ltb_irrefl by lia.
    exists blocks. split; [done|]. split; [done|].
    split; [intros; lia | done].
  - simpl. unfold INT_MAX, UINT64_MOD in *.
    rewrite Z.mod_small by lia.
    destruct (Z.ltb_spec i cap) as [Hlt|Hge].
    + rewrite decide_True by lia.
      rewrite (proj2 (Z.ltb_lt i _)) by lia.
      destruct (IH (i + 1)%Z
                  (<[Z.to_nat (i - 1) := mNext (Some (Addr this (Z.to_nat i)))]> blocks))
        as (blocks' & Hrun & Hlen' & Hnew & Hold);
        [lia | lia | lia | by rewrite length_insert |].
      exists blocks'. split; [done|]. rewrite length_insert in Hlen'.
      split; [done|]. split.
      * intros j Hj. destruct (decide (j = Z.to_nat i - 1)) as [->|Hne].
        -- rewrite Hold by lia.
           replace (Z.to_nat (i - 1)) with (Z.to_nat i - 1) by lia.
           rewrite list_lookup_insert_eq by lia.
           by replace (S (Z.to_nat i - 1)) with (Z.to_nat i) by lia.
        -- apply Hnew. lia.
      * intros j Hj. rewrite Hold by lia.
        apply list_lookup_insert_ne. lia.
    + exists blocks. split; [done|]. split; [done|].
      split; [intros; lia | done].
Qed.

Lemma link_blocks_overflow this cap fuel :
  ∀ i blocks,
    (1 ≤ i ≤ INT_MAX)%Z →
    (INT_MAX < cap)%Z →
    link_blocks fuel this cap i blocks = None.
Proof.
  unfold INT_MAX.
  induction fuel as [|fuel IH]; intros i blocks Hi Hcap; simpl;
    unfold UINT64_MOD; rewrite Z.mod_small by lia;
    rewrite (proj2 (Z.ltb_lt i cap)) by lia; [done|].
  case_decide; [|done].
  unfold INT_MAX. destruct (Z.ltb_spec i (2 ^ 31 - 1)); [|done].
  apply IH; lia.
Qed.

Lemma linked_chain this blocks N :
  length blocks = N →
  (∀ j, j < N - 1 → blocks !! j = Some (mNext (Some (Addr this (S j))))) →
  (0 < N → blocks !! (N - 1) = Some Zeroed) →
  ∀ n k, k + n = N → 0 < n →
         chain this blocks (Some (Addr this k)) (seq k n).
Proof.
  intros Hlen Hlink Hlast n.
  induction n as [|n IH]; intros k Hk Hn; [lia|].
  destruct n as [|n]; simpl.
  - eapply chain_cons with (b := Zeroed); [|done|constructor].
    replace k with (N - 1) by lia. apply Hlast. lia.
  - eapply chain_cons; [apply Hlink; lia|done|].
    apply (IH (S k)); lia.
Qed.

Lemma SmartMemoryPool_ctor_spec N w :
  (0 < N ≤ INT_MAX)%Z →
  ∃ p,
    SmartMemoryPool_ctor N w
    = Some (next_pool w,
            {| pools := <[next_pool w := p]> (pools w);
               next_pool := S (next_pool w);
               trace := trace w |}) ∧
    mCapacity p = N ∧
    mAvailable p = N ∧
    length (mPool p) = Z.to_nat N ∧
    chain (next_pool w) (mPool p) (mNextFree p) (seq 0 (Z.to_nat N)).
Proof.
  intros HN. unfold SmartMemoryPool_ctor.
  destruct (link_blocks_spec (next_pool w) N (Z.to_nat N) 1
              (replicate (Z.to_nat N) Zeroed))
    as (blocks & -> & Hlen & Hnew & Hold);
    [lia | lia | lia | by rewrite length_replicate |].
  rewrite length_replicate in Hlen.
  eexists. split; [reflexivity|]. simpl.
  split; [done|]. split; [done|]. split; [done|].
  apply linked_chain with (N := Z.to_nat N); [done| | |lia|lia].
  - intros j Hj. apply Hnew. lia.
  - intros _. rewrite Hold by lia.
    apply lookup_replicate_2. lia.
Qed.

Lemma SmartMemoryPool_ctor_overflow N w :
  (INT_MAX < N)%Z → SmartMemoryPool_ctor N w = None.
Proof.
  intros HN. unfold SmartMemoryPool_ctor.
  rewrite link_blocks_overflow; [done| |done]. unfold INT_MAX. lia.
Qed.

(** ** The free list *)

Lemma chain_insert this blocks i b head l :
  i ∉ l →
  chain this blocks head l →
  chain this (<[i := b]> blocks) head l.
Proof.
  intros Hi Hc. induction Hc as [|j c next l Hj Hc Hl IH]; [constructor|].
  apply not_elem_of_cons in Hi as [Hne Hi].
  econstructor; [|done|by apply IH].
  by rewrite list_lookup_insert_ne.
Qed.

Lemma chain_lt this blocks head l i :
  chain this blocks head l → i ∈ l → i < length blocks.
Proof.
  induction 1 as [|j c next l Hj Hc Hl IH]; intros Hi.
  - by apply elem_of_nil in Hi.
  - apply elem_of_cons in Hi as [->|Hi]; [by eapply lookup_lt_Some|auto].
Qed.

Lemma chain_free_list this blocks head l :
  chain this blocks head l →
  ∀ fuel, length l ≤ fuel → free_list fuel this blocks head = Some l.
Proof.
  induction 1 as [|j c next l Hj Hc Hl IH]; intros fuel Hfuel.
  - by destruct fuel.
  - destruct fuel as [|fuel]; simpl in *; [lia|].
    rewrite decide_True by done. rewrite Hj, Hc, IH by lia. done.
Qed.

Lemma bounded_NoDup_length (l : list nat) n :
  NoDup l → (∀ i, i ∈ l → i < n) → length l ≤ n.
Proof.
  intros Hnd Hlt.
  assert (l ⊆+ seq 0 n) as Hsub.
  { apply NoDup_submseteq; [done|].
    intros i Hi. apply elem_of_seq. apply Hlt in Hi. lia. }
  apply submseteq_length in Hsub. by rewrite length_seq in Hsub.
Qed.

Lemma chain_head_inv this blocks head i l :
  chain this blocks head (i :: l) →
  head = Some (Addr this i) ∧
  ∃ b next, blocks !! i = Some b ∧ link_of b = Some next ∧
            chain this blocks next l.
Proof. inversion 1; subst. eauto 10. Qed.

Lemma chain_empty_inv this blocks head :
  chain this blocks head [] → head = None.
Proof. by inversion 1. Qed.

(** ** The handles of a client *)

Lemma claimed_slots_snoc hs h :
  claimed_slots (hs ++ [h])
  = claimed_slots hs ++ match get h with Some a => [slot a] | None => [] end.
Proof.
  unfold claimed_slots. rewrite omap_app. simpl. by destruct (get h).
Qed.

Lemma claimed_slots_delete hs k h :
  hs !! k = Some h →
  claimed_slots hs
  ≡ₚ match get h with Some a => [slot a] | None => [] end
     ++ claimed_slots (delete k hs).
Proof.
  intros Hk. rewrite <- (take_drop_middle hs k h Hk) at 1.
  rewrite delete_take_drop. unfold claimed_slots.
  rewrite !omap_app. simpl. destruct (get h); simpl; [|done].
  by rewrite Permutation_middle.
Qed.

Lemma claimed_slots_elem hs h a :
  h ∈ hs → get h = Some a → slot a ∈ claimed_slots hs.
Proof.
  intros Hh Ha. apply list_elem_of_omap. exists h. by rewrite Ha.
Qed.

Lemma handles_insert this blocks hs i b :
  i ∉ claimed_slots hs →
  Forall (handle_ok this blocks) hs →
  Forall (handle_ok this (<[i := b]> blocks)) hs.
Proof.
  intros Hi. rewrite !Forall_forall. intros Hok h Hh.
  destruct (Hok h Hh) as [Hd Hlive]. split; [done|].
  intros a Ha. destruct (Hlive a Ha) as [Hs [v Hv]]. split; [done|].
  exists v. rewrite list_lookup_insert_ne; [done|].
  intros ->. apply Hi. by eapply claimed_slots_elem.
Qed.

(** ** The invariant of a pool and its client *)

Lemma pool_inv_bound this K free hs w :
  pool_inv this K free hs w →
  (Z.of_nat (length free) + Z.of_nat (length (claimed_slots hs))
   = Z.of_nat (Z.to_nat K) ∧ Z.of_nat (Z.to_nat K) < UINT64_MOD)%Z.
Proof.
  intros (p & Hp & Hcap & Hwf). destruct Hwf. split; [lia|done].
Qed.

Lemma construct_keeps_inv_exhausted this K hs v w :
  pool_inv this K [] hs w →
  construct this v w
  = Some ({| get := None; get_deleter := weak_this this |}, w) ∧
  pool_inv this K [] (hs ++ [{| get := None; get_deleter := weak_this this |}]) w.
Proof.
  intros (p & Hp & Hcap & Hwf). destruct Hwf.
  split.
  - eapply construct_exhausted; [done|]. by eapply chain_empty_inv.
  - exists p. split; [done|]. split; [done|].
    constructor; rewrite ?claimed_slots_snoc, ?app_nil_r; try done.
    apply Forall_app. split; [done|]. by repeat constructor.
Qed.

Lemma construct_keeps_inv_claim this K i free hs v w :
  pool_inv this K (i :: free) hs w →
  ∃ w',
    construct this v w
    = Some ({| get := Some (Addr this i); get_deleter := weak_this this |}, w') ∧
    pool_inv this K free
      (hs ++ [{| get := Some (Addr this i); get_deleter := weak_this this |}]) w'.
Proof.
  intros (p & Hp & Hcap & Hwf). destruct Hwf.
  apply chain_head_inv in wf_chain0
    as (Hhead & b & next & Hb & Hnext & Hchain).
  eexists. split; [by eapply construct_claim|].
  eexists. split; [apply evolve_lookup|]. split; [done|].
  simpl in wf_nodup0. apply NoDup_cons in wf_nodup0 as [Hi Hnd].
  apply not_elem_of_app in Hi as [Hfree Hcl].
  assert (i < length (mPool p)) by by eapply lookup_lt_Some.
  constructor; simpl; rewrite ?claimed_slots_snoc; simpl.
  - by rewrite length_insert.
  - by apply chain_insert.
  - rewrite app_assoc. apply NoDup_app. split; [done|].
    split; [|apply NoDup_singleton].
    intros j Hj ->%list_elem_of_singleton.
    apply elem_of_app in Hj as [?|?]; done.
  - rewrite length_app. simpl in *. lia.
  - apply Forall_app. split; [by apply handles_insert|].
    apply Forall_singleton. split; [done|].
    intros ? [= <-]. split; [done|].
    exists v. by apply list_lookup_insert_eq.
  - simpl in *. rewrite wf_avail0. unfold UINT64_MOD in *.
    rewrite Z.mod_small; lia.
  - done.
Qed.

Lemma unique_ptr_dtor_null h w :
  get h = None → unique_ptr_dtor h w = Some (tt, w).
Proof. intros Hh. unfold unique_ptr_dtor. by rewrite Hh. Qed.

Lemma destruct_unique_ptr_unfold this h w :
  destruct_unique_ptr this h w = destruct_ptr this (get h) w.
Proof.
  unfold destruct_unique_ptr, unique_ptr_release; simpl.
  unfold bind. destruct (destruct_ptr this (get h) w) as [[[] w']|]; done.
Qed.

Lemma release_keeps_inv this K free hs k h w :
  pool_inv this K free hs w →
  hs !! k = Some h →
  ∃ wd wx,
    unique_ptr_dtor h w = Some (tt, wd) ∧
    destruct_unique_ptr this h w = Some (tt, wx) ∧
    pool_inv this K
      (match get h with Some a => [slot a] | None => [] end ++ free)
      (delete k hs) wd ∧
    pool_inv this K
      (match get h with Some a => [slot a] | None => [] end ++ free)
      (delete k hs) wx ∧
    match get h with
    | Some a =>
        ∃ p v, pools w !! this = Some p ∧ slab a = this ∧
               mPool p !! slot a = Some (mStorage (Some v)) ∧
               wd = evolve this (pushed a p)
                      [Ev_destroy_B a v;
                       Ev_compare_exchange this (mNextFree p) (Some a);
                       Ev_fetch_add this] w ∧
               wx = evolve this (pushed a p)
                      [Ev_destroy a v;
                       Ev_compare_exchange this (mNextFree p) (Some a);
                       Ev_fetch_add this] w
    | None => wd = w ∧ wx = w
    end.
Proof.
  intros (p & Hp & Hcap & Hwf) Hk. destruct Hwf.
  pose proof (claimed_slots_delete hs k h Hk) as Hperm.
  pose proof (Forall_lookup_1 _ _ _ _ wf_handles0 Hk) as [Hd Hlive].
  rewrite destruct_unique_ptr_unfold.
  destruct (get h) as [a|] eqn:Hget; simpl in *.
  - destruct (Hlive a eq_refl) as [Hslab [v Hv]].
    rewrite Hperm in wf_nodup0, wf_count0.
    apply NoDup_app in wf_nodup0 as (Hnd1 & Hdisj & Hnd2).
    apply NoDup_cons in Hnd2 as [Ha Hnd2].
    assert (slot a ∉ free) as Hfree.
    { intros Hin. apply (Hdisj _ Hin). left. }
    assert (slot a < length (mPool p)) by by eapply lookup_lt_Some.
    assert (∀ es, pool_inv this K (slot a :: free) (delete k hs)
                    (evolve this (pushed a p) es w)) as Hinv.
    { intros es. eexists. split; [apply evolve_lookup|]. split; [done|].
      constructor; simpl.
      + by rewrite length_insert.
      + destruct a as [sl i]; simpl in *; subst sl.
        eapply chain_cons; [by apply list_lookup_insert_eq|done|].
        by apply chain_insert.
      + apply NoDup_cons. split.
        * intros [?|?]%elem_of_app; done.
        * apply NoDup_app. split; [done|]. split; [|done].
          intros j Hj Hj'. apply (Hdisj _ Hj). by right.
      + simpl in *. lia.
      + apply handles_insert; [done|]. by apply Forall_delete.
      + rewrite wf_avail0. simpl in *.
        unfold UINT64_MOD in *. rewrite Z.mod_small; lia.
      + done. }
    do 2 eexists. split.
    { unfold unique_ptr_dtor. rewrite Hget, Hd.
      erewrite SmartDeleter_call_alive by done.
      by apply destroy_B_deallocate. }
    split; [by apply destroy_deallocate|].
    split; [apply Hinv|]. split; [apply Hinv|]. by exists p, v.
  - exists w, w. split; [by apply unique_ptr_dtor_null|]. split; [done|].
    assert (pool_inv this K free (delete k hs) w) as Hinv.
    { exists p. split; [done|]. split; [done|].
      constructor; try done.
      + by rewrite <- Hperm.
      + by rewrite <- Hperm.
      + by apply Forall_delete. }
    done.
Qed.

Lemma step_keeps_inv this K o free hs w :
  pool_inv this K free hs w →
  ∃ free' hs' w',
    step this o hs w = Some (hs', w') ∧ pool_inv this K free' hs' w'.
Proof.
  intros Hinv. destruct o as [v|k|k]; simpl.
  - destruct free as [|i free].
    + destruct (construct_keeps_inv_exhausted this K hs v w Hinv) as [Hrun Hinv'].
      do 3 eexists. split; [|exact Hinv'].
      by erewrite bind_Some by done.
    + destruct (construct_keeps_inv_claim this K i free hs v w Hinv)
        as (w' & Hrun & Hinv').
      do 3 eexists. split; [|exact Hinv'].
      by erewrite bind_Some by done.
  - destruct (hs !! k) as [h|] eqn:Hk; [|by do 3 eexists].
    destruct (release_keeps_inv this K free hs k h w Hinv Hk)
      as (w' & _ & Hrun & _ & Hinv' & _).
    do 3 eexists. split; [|exact Hinv'].
    by erewrite bind_Some by done.
  - destruct (hs !! k) as [h|] eqn:Hk; [|by do 3 eexists].
    destruct (release_keeps_inv this K free hs k h w Hinv Hk)
      as (_ & w' & _ & Hrun & _ & Hinv' & _).
    do 3 eexists. split; [|exact Hinv'].
    by erewrite bind_Some by done.
Qed.

Lemma run_keeps_inv this K ops :
  ∀ free hs w,
    pool_inv this K free hs w →
    ∃ free' hs' w',
      run this ops hs w = Some (hs', w') ∧ pool_inv this K free' hs' w'.
Proof.
  induction ops as [|o ops IH]; intros free hs w Hinv; simpl.
  - by do 3 eexists.
  - destruct (step_keeps_inv this K o free hs w Hinv)
      as (free1 & hs1 & w1 & Hstep & Hinv1).
    destruct (IH free1 hs1 w1 Hinv1) as (free2 & hs2 & w2 & Hrun & Hinv2).
    do 3 eexists. split; [|exact Hinv2].
    by erewrite bind_Some by done.
Qed.

Lemma construct_many this K vs :
  ∀ free hs w,
    pool_inv this K free hs w →
    length vs ≤ length free →
    ∃ w',
      run this (Construct <$> vs) hs w
      = Some (hs ++ (handle_at this <$> take (length vs) free), w') ∧
      pool_inv this K (drop (length vs) free)
        (hs ++ (handle_at this <$> take (length vs) free)) w'.
Proof.
  induction vs as [|v vs IH]; intros free hs w Hinv Hlen; simpl.
  - rewrite ?take_0, ?drop_0. simpl. rewrite app_nil_r. by eexists.
  - destruct free as [|i free]; simpl in *; [lia|].
    destruct (construct_keeps_inv_claim this K i free hs v w Hinv)
      as (w1 & Hrun & Hinv1).
    destruct (IH free _ w1 Hinv1) as (w2 & Hrun2 & Hinv2); [lia|].
    rewrite <- app_assoc in Hrun2, Hinv2.
    exists w2. split; [|exact Hinv2].
    erewrite bind_Some; cycle 1.
    { by erewrite bind_Some by done. }
    exact Hrun2.
Qed.

Lemma SmartMemoryPool_ctor_inv K w0 this w :
  (0 < K)%Z →
  SmartMemoryPool_ctor K w0 = Some (this, w) →
  (K ≤ INT_MAX)%Z ∧ trace w = trace w0 ∧
  pool_inv this K (seq 0 (Z.to_nat K)) [] w.
Proof.
  intros HK Hctor.
  assert (K ≤ INT_MAX)%Z as Hmax.
  { destruct (Z.le_gt_cases K INT_MAX) as [|Hgt]; [done|].
    by rewrite SmartMemoryPool_ctor_overflow in Hctor. }
  split; [done|].
  destruct (SmartMemoryPool_ctor_spec K w0)
    as (p & Heq & Hcap & Hav & Hlen & Hchain); [done|].
  rewrite Heq in Hctor. injection Hctor as <- <-. split; [done|].
  exists p. split; [apply lookup_insert_eq|]. split; [done|].
  constructor; simpl; rewrite ?app_nil_r, ?length_seq; try done.
  - apply NoDup_seq.
  - rewrite Hav. lia.
  - unfold INT_MAX, UINT64_MOD in *. lia.
Qed.

Lemma reachable_inv K w0 this w1 ops hs w :
  (0 < K)%Z →
  SmartMemoryPool_ctor K w0 = Some (this, w1) →
  run this ops [] w1 = Some (hs, w) →
  ∃ free, pool_inv this K free hs w.
Proof.
  intros HK Hctor Hrun.
  destruct (SmartMemoryPool_ctor_inv K w0 this w1 HK Hctor) as (_ & _ & Hinv).
  destruct (run_keeps_inv this K ops _ _ _ Hinv) as (free & hs' & w' & Hrun' & Hinv').
  rewrite Hrun in Hrun'. injection Hrun' as <- <-. by exists free.
Qed.

(** ** Further facts about the primitives *)


Lemma allocate_nullopt_inv this w w' :
  allocate this w = Some (None, w') →
  w' = w ∧ ∃ p, pools w !! this = Some p ∧ mNextFree p = None.
Proof.
  unfold allocate, mNextFree_load, bind at 1, bind at 1, get_pool.
  destruct (pools w !! this) as [p|] eqn:Hp; simpl; [|done].
  destruct (mNextFree p) as [a|] eqn:Hhead; simpl.
  - unfold bind.
    destruct (read_mNext a w) as [[next w1]|]; [|done].
    destruct (compare_exchange_strong this (Some a) next w1)
      as [[[[] e] w2]|]; simpl; done.
  - unfold ret. intros [= <-]. eauto.
Qed.

(** ** The retry loops in a sequential run *)




(** * The claims *)

(** C1 (amended). For a handle whose wrapped address [a] is non-null,
    the deleter acts only if the owning pool is still alive: it then runs
    the destructor of the held value, as [ptr->~B()], and returns the slot
    to the free list.  If the pool has been destroyed the deleter does nothing, the
    destructor is not run and no slot is returned. *)
Theorem deleter_acts_iff_pool_alive (h : unique_ptr) (a : addr) (w : World V) :
  get h = Some a →
  (pools w !! mParentPool (get_deleter h) = None →
   SmartDeleter_call (get_deleter h) (get h) w = Some (tt, w)) ∧
  (∀ p v,
     pools w !! mParentPool (get_deleter h) = Some p →
     slab a = mParentPool (get_deleter h) →
     mPool p !! slot a = Some (mStorage (Some v)) →
     SmartDeleter_call (get_deleter h) (get h) w
     = Some (tt, evolve (mParentPool (get_deleter h)) (pushed a p)
                   [Ev_destroy_B a v;
                    Ev_compare_exchange (mParentPool (get_deleter h))
                      (mNextFree p) (Some a);
                    Ev_fetch_add (mParentPool (get_deleter h))] w)).
Proof.
  intros Hget. rewrite Hget. split.
  - apply SmartDeleter_call_expired.
  - intros p v Hp Hslab Hv.
    erewrite SmartDeleter_call_alive by done.
    by apply destroy_B_deallocate.
Qed.


(** C3. Whatever the free list of a pool holds, releasing three distinct
    slot addresses [A], [B], [C] of its slab in that order and then
    claiming three times returns [C], then [B], then [A]; the head of the
    free list is then what it was before. *)
Theorem free_list_is_lifo this p A B C w :
  pools w !! this = Some p →
  slab A = this → slab B = this → slab C = this →
  slot A < length (mPool p) →
  slot B < length (mPool p) →
  slot C < length (mPool p) →
  A ≠ B → B ≠ C → A ≠ C →
  ∃ w' p',
    (deallocate this (Some A) ;;
     deallocate this (Some B) ;;
     deallocate this (Some C) ;;
     x <- allocate this ;;
     y <- allocate this ;;
     z <- allocate this ;;
     ret [x; y; z]) w
    = Some ([Some C; Some B; Some A], w') ∧
    pools w' !! this = Some p' ∧
    mNextFree p' = mNextFree p.
Proof.
  intros Hp HA HB HC HlA HlB HlC HAB HBC HAC.
  assert (slot A ≠ slot B) by (destruct A, B; simpl in *; congruence).
  assert (slot B ≠ slot C) by (destruct B, C; simpl in *; congruence).
  assert (slot A ≠ slot C) by (destruct A, C; simpl in *; congruence).
  erewrite bind_Some by by apply deallocate_push.
  erewrite bind_Some;
    [|apply deallocate_push; [apply evolve_lookup|done|]];
    [|by simpl; rewrite length_insert].
  erewrite bind_Some;
    [|apply deallocate_push; [apply evolve_lookup|done|]];
    [|by simpl; rewrite !length_insert].
  erewrite bind_Some; cycle 1.
  { eapply allocate_pop; [apply evolve_lookup|done|..].
    - rewrite HC. apply evolve_lookup.
    - simpl. apply list_lookup_insert_eq. by rewrite !length_insert.
    - done. }
  erewrite bind_Some; cycle 1.
  { eapply allocate_pop; [apply evolve_lookup|done|..].
    - rewrite HB. apply evolve_lookup.
    - simpl. rewrite list_lookup_insert_ne by done.
      apply list_lookup_insert_eq. by rewrite !length_insert.
    - done. }
  erewrite bind_Some; cycle 1.
  { eapply allocate_pop; [apply evolve_lookup|done|..].
    - rewrite HA. apply evolve_lookup.
    - simpl. rewrite !list_lookup_insert_ne by done.
      by apply list_lookup_insert_eq.
    - done. }
  do 2 eexists. split; [reflexivity|]. split; [apply evolve_lookup|done].
Qed.

(** C4. A pool constructed with positive capacity [N] starts with all
    [N] slots on its free list and its counter at [N].  [N] calls of
    [construct] with no release in between all succeed, claiming the slots
    in order; the next call returns a null handle.  However the client
    goes on, it never holds more than [N] non-null handles, and no two of
    them share a slot. *)
Theorem capacity_bound N w0 this w vs v :
  (0 < N)%Z →
  SmartMemoryPool_ctor N w0 = Some (this, w) →
  length vs = Z.to_nat N →
  free_slots this w = Some (seq 0 (Z.to_nat N)) ∧
  available this w = Some (N, w) ∧
  (∃ w',
     run this (Construct <$> vs) [] w
     = Some (handle_at this <$> seq 0 (Z.to_nat N), w') ∧
     construct this v w' = Some (null_handle this, w')) ∧
  (∀ ops, ∃ hs w',
     run this ops [] w = Some (hs, w') ∧
     length (claimed_slots hs) ≤ Z.to_nat N ∧
     NoDup (claimed_slots hs)).
Proof.
  intros HN Hctor Hvs.
  destruct (SmartMemoryPool_ctor_inv N w0 this w HN Hctor) as (_ & _ & Hinv).
  split; [|split; [|split]].
  - destruct Hinv as (p & Hp & _ & Hwf). destruct Hwf.
    unfold free_slots. rewrite Hp.
    apply chain_free_list; [done|]. rewrite length_seq. lia.
  - destruct Hinv as (p & Hp & _ & Hwf). destruct Hwf.
    unfold available, bind, get_pool. rewrite Hp. simpl.
    rewrite wf_avail0, length_seq. unfold ret. do 2 f_equal. lia.
  - destruct (construct_many this N vs _ _ _ Hinv) as (w' & Hrun & Hinv').
    { rewrite length_seq. lia. }
    rewrite Hvs in Hrun, Hinv'.
    rewrite take_ge in Hrun, Hinv' by (rewrite length_seq; lia).
    rewrite drop_ge in Hinv' by (rewrite length_seq; lia).
    exists w'. split; [done|].
    by destruct (construct_keeps_inv_exhausted this N _ v w' Hinv').
  - intros ops.
    destruct (run_keeps_inv this N ops _ _ _ Hinv)
      as (free & hs & w' & Hrun & Hinv').
    exists hs, w'. split; [done|].
    pose proof (pool_inv_bound _ _ _ _ _ Hinv') as [Hsum _].
    split; [lia|].
    destruct Hinv' as (p & _ & _ & Hwf). destruct Hwf.
    by apply NoDup_app in wf_nodup0 as (_ & _ & ?).
Qed.

(** C5. For a pool constructed with positive capacity [K] and every
    sequence of construct and release operations of a sequential client,
    the run succeeds and [available()] then returns [K] minus the number
    of slots the client holds; it is [K] once no slot is held. *)
Theorem available_tracks_claimed K w0 this w ops :
  (0 < K)%Z →
  SmartMemoryPool_ctor K w0 = Some (this, w) →
  ∃ hs w',
    run this ops [] w = Some (hs, w') ∧
    available this w'
    = Some ((K - Z.of_nat (length (claimed_slots hs)))%Z, w') ∧
    (claimed_slots hs = [] → available this w' = Some (K, w')).
Proof.
  intros HK Hctor.
  destruct (SmartMemoryPool_ctor_inv K w0 this w HK Hctor) as (_ & _ & Hinv).
  destruct (run_keeps_inv this K ops _ _ _ Hinv)
    as (free & hs & w' & Hrun & Hinv').
  exists hs, w'. split; [done|].
  pose proof (pool_inv_bound _ _ _ _ _ Hinv') as [Hsum _].
  destruct Hinv' as (p & Hp & _ & Hwf). destruct Hwf.
  assert (available this w'
          = Some ((K - Z.of_nat (length (claimed_slots hs)))%Z, w')) as Hav.
  { unfold available, bind, get_pool. rewrite Hp. simpl.
    rewrite wf_avail0. unfold ret. do 2 f_equal. lia. }
  split; [done|]. intros Hnone. rewrite Hav, Hnone. simpl.
  do 2 f_equal. lia.
Qed.

(** C6. [deallocate] first pushes the slot on the free list with a
    compare-exchange and then, as a separate step, adds one to the counter;
    a successful [construct] pops the slot, then takes one off the counter,
    then constructs the value in the storage of the claimed slot. *)
Theorem counter_follows_free_list this p w :
  pools w !! this = Some p →
  (∀ a, slab a = this → slot a < length (mPool p) →
        deallocate this (Some a) w
        = Some (tt, evolve this (pushed a p)
                      [Ev_compare_exchange this (mNextFree p) (Some a);
                       Ev_fetch_add this] w)) ∧
  (∀ a b next v,
     mNextFree p = Some a → slab a = this →
     mPool p !! slot a = Some b → link_of b = Some next →
     construct this v w
     = Some ({| get := Some a; get_deleter := weak_this this |},
             evolve this (claimed a next v p)
               [Ev_compare_exchange this (Some a) next;
                Ev_fetch_sub this;
                Ev_construct a v] w)).
Proof.
  intros Hp. split.
  - intros a Hslab Hlt. by apply deallocate_push.
  - intros a b next v Hhead Hslab Hb Hnext. by eapply construct_claim.
Qed.

(** C7. On an exhausted pool [construct] returns a handle that holds no
    value and whose deleter is bound to this pool; letting that handle go
    out of scope, or passing it to [destruct], changes nothing and is
    defined in every world, even after the pool is gone. *)
Theorem null_handle_is_harmless this p v w :
  pools w !! this = Some p →
  mNextFree p = None →
  ∃ h,
    construct this v w = Some (h, w) ∧
    get h = None ∧
    mParentPool (get_deleter h) = this ∧
    lock (get_deleter h) w = Some (Some this, w) ∧
    ∀ w' pool,
      unique_ptr_dtor h w' = Some (tt, w') ∧
      destruct_unique_ptr pool h w' = Some (tt, w').
Proof.
  intros Hp Hhead. exists (null_handle this).
  split; [by eapply construct_exhausted|]. split; [done|]. split; [done|].
  split; [by eapply lock_alive|].
  intros w' pool. split; [done|]. by rewrite destruct_unique_ptr_unfold.
Qed.

(** C8. [destruct] of a null address does nothing.  [destruct] of a
    non-null address runs the destructor of the value and then
    [deallocate]; on a live value of the pool's slab this ends with the
    value destroyed, the slot pushed and the counter one up. *)
Theorem destruct_ptr_null_and_live this w :
  destruct_ptr this None w = Some (tt, w) ∧
  (∀ a, destruct_ptr this (Some a) w
        = bind (destroy (Some a)) (λ _, deallocate this (Some a)) w) ∧
  (∀ a p v,
     pools w !! this = Some p →
     slab a = this →
     mPool p !! slot a = Some (mStorage (Some v)) →
     destruct_ptr this (Some a) w
     = Some (tt, evolve this (pushed a p)
                   [Ev_destroy a v;
                    Ev_compare_exchange this (mNextFree p) (Some a);
                    Ev_fetch_add this] w)).
Proof.
  split; [done|]. split; [done|].
  intros a p v Hp Hslab Hv. by apply destroy_deallocate.
Qed.

(** C9. Whenever [construct] returns a null handle, the world is exactly
    what it was before the call, and the free list of the pool was empty:
    neither the head nor the counter has moved. *)
Theorem construct_failure_is_atomic this v w h w' :
  construct this v w = Some (h, w') →
  get h = None →
  w' = w ∧ ∃ p, pools w !! this = Some p ∧ mNextFree p = None.
Proof.
  unfold construct, bind at 1. intros Hrun Hget.
  destruct (allocate this w) as [[[mem|] w1]|] eqn:Halloc; [|..|done].
  - exfalso. unfold bind in Hrun.
    destruct (mAvailable_decr this w1) as [[[] w2]|]; [|done].
    destruct (placement_new mem v w2) as [[[] w3]|]; [|done].
    injection Hrun as <- <-. done.
  - injection Hrun as <- <-. by eapply allocate_nullopt_inv.
Qed.

(** C10. [destruct(handle)] takes the raw address out of the handle
    before it destroys the value.  For a non-null handle on a live value
    of the pool the call runs the destructor exactly once and pushes the
    slot exactly once; the handle it leaves behind is null and its
    destruction does nothing, in any world. *)
Theorem destruct_handle_exactly_once this p h a v w :
  pools w !! this = Some p →
  get h = Some a →
  slab a = this →
  mPool p !! slot a = Some (mStorage (Some v)) →
  ∃ es w',
    destruct_unique_ptr this h w = Some (tt, w') ∧
    trace w' = trace w ++ es ∧
    count_events (is_destroy_of a) es = 1 ∧
    count_events (is_push_of this a) es = 1 ∧
    pools w' !! this = Some (pushed a p) ∧
    get (unique_ptr_release h).2 = None ∧
    ∀ w'', unique_ptr_dtor (unique_ptr_release h).2 w'' = Some (tt, w'').
Proof.
  intros Hp Hget Hslab Hv.
  exists [Ev_destroy a v;
          Ev_compare_exchange this (mNextFree p) (Some a);
          Ev_fetch_add this].
  eexists. split.
  { rewrite destruct_unique_ptr_unfold, Hget. by apply destroy_deallocate. }
  split; [done|].
  unfold count_events; simpl.
  rewrite !bool_decide_eq_true_2 by done. simpl.
  split; [done|]. split; [done|]. split; [apply lookup_insert_eq|done].
Qed.

(** * Further properties *)

(** ** The run of a client, step by step *)

Lemma evolve_id this p w : pools w !! this = Some p → evolve this p [] w = w.
Proof.
  intros Hp. destruct w as [ps n t]. unfold evolve; simpl in *.
  by rewrite insert_id, app_nil_r.
Qed.

Lemma count_events_app (f : Event V → bool) es1 es2 :
  count_events f (es1 ++ es2) = count_events f es1 + count_events f es2.
Proof. unfold count_events. by rewrite List.filter_app, length_app. Qed.

Lemma pool_inv_free_slots this K free hs w :
  pool_inv this K free hs w → free_slots this w = Some free.
Proof.
  intros (p & Hp & _ & Hwf). destruct Hwf.
  unfold free_slots. rewrite Hp. apply chain_free_list; [done|]. lia.
Qed.

Lemma step_outcome this K o free hs w :
  pool_inv this K free hs w →
  ∃ w' p' es,
    step this o hs w = Some ((stack_step this o (free, hs)).2, w') ∧
    pool_inv this K (stack_step this o (free, hs)).1
      (stack_step this o (free, hs)).2 w' ∧
    w' = evolve this p' es w ∧
    count_events is_construct es + length (claimed_slots hs)
    = count_events is_destroy es
      + length (claimed_slots (stack_step this o (free, hs)).2).
Proof.
  intros Hinv. pose proof Hinv as (p & Hp & Hcap & Hwf).
  assert (∀ k h, hs !! k = Some h →
    ∀ release : M V unit,
      release = unique_ptr_dtor h ∨ release = destruct_unique_ptr this h →
      ∃ w' p' es,
        release w = Some (tt, w') ∧
        pool_inv this K
          (match get h with Some a => slot a :: free | None => free end)
          (delete k hs) w' ∧
        w' = evolve this p' es w ∧
        count_events is_construct es + length (claimed_slots hs)
        = count_events is_destroy es + length (claimed_slots (delete k hs)))
    as Hrelease.
  { intros k h Hk release Hwhich.
    destruct (release_keeps_inv this K free hs k h w Hinv Hk)
      as (wd & wx & Hdtor & Hdes & Hinvd & Hinvx & Hw').
    pose proof (Permutation_length (claimed_slots_delete hs k h Hk)) as Hlen.
    destruct (get h) as [a|]; simpl in *.
    - destruct Hw' as (p0 & v & _ & _ & _ & -> & ->).
      destruct Hwhich as [-> | ->]; do 3 eexists.
      + split; [done|]. split; [done|]. split; [reflexivity|].
        unfold count_events, Ev_destroy_B; simpl.
        destruct dtor_reaches_value_type; simpl; lia.
      + split; [done|]. split; [done|]. split; [reflexivity|].
        unfold count_events; simpl. lia.
    - destruct Hw' as [-> ->]. exists w, p, [].
      split; [by destruct Hwhich as [-> | ->]|]. split; [done|].
      split; [by rewrite evolve_id|].
      unfold count_events; simpl. lia. }
  destruct o as [v|k|k]; simpl.
  - destruct free as [|i free]; simpl.
    + destruct (construct_keeps_inv_exhausted this K hs v w Hinv)
        as [Hrun Hinv'].
      exists w, p, []. split; [by erewrite bind_Some by done|].
      split; [done|]. split; [by rewrite evolve_id|].
      rewrite claimed_slots_snoc; simpl. by rewrite app_nil_r.
    + destruct (construct_keeps_inv_claim this K i free hs v w Hinv)
        as (w' & Hrun & Hinv').
      destruct Hwf.
      apply chain_head_inv in wf_chain0
        as (Hhead & b & next & Hb & Hnext & _).
      assert (construct this v w
              = Some (handle_at this i,
                      evolve this (claimed (Addr this i) next v p)
                        [Ev_compare_exchange this (Some (Addr this i)) next;
                         Ev_fetch_sub this;
                         Ev_construct (Addr this i) v] w)) as Hexplicit
        by by eapply construct_claim.
      rewrite Hexplicit in Hrun. injection Hrun as <-.
      do 3 eexists. split; [by erewrite bind_Some by done|].
      split; [done|]. split; [reflexivity|].
      rewrite claimed_slots_snoc, length_app.
      unfold count_events; simpl. lia.
  - destruct (hs !! k) as [h|] eqn:Hk; simpl.
    + destruct (Hrelease k h Hk _ (or_introl eq_refl))
        as (w' & p' & es & Hrun & Hinv' & Hw' & Hc).
      exists w', p', es. split; [by erewrite bind_Some by done|]. done.
    + exists w, p, []. split; [done|]. split; [done|].
      split; [by rewrite evolve_id|]. done.
  - destruct (hs !! k) as [h|] eqn:Hk; simpl.
    + destruct (Hrelease k h Hk _ (or_intror eq_refl))
        as (w' & p' & es & Hrun & Hinv' & Hw' & Hc).
      exists w', p', es. split; [by erewrite bind_Some by done|]. done.
    + exists w, p, []. split; [done|]. split; [done|].
      split; [by rewrite evolve_id|]. done.
Qed.

Lemma run_outcome this K ops :
  ∀ free hs w,
    pool_inv this K free hs w →
    ∃ w' es,
      run this ops hs w = Some ((stack_run this ops (free, hs)).2, w') ∧
      pool_inv this K (stack_run this ops (free, hs)).1
        (stack_run this ops (free, hs)).2 w' ∧
      trace w' = trace w ++ es ∧
      next_pool w' = next_pool w ∧
      (∀ other, other ≠ this → pools w' !! other = pools w !! other) ∧
      count_events is_construct es + length (claimed_slots hs)
      = count_events is_destroy es
        + length (claimed_slots (stack_run this ops (free, hs)).2).
Proof.
  induction ops as [|o ops IH]; intros free hs w Hinv; simpl.
  - exists w, []. repeat split; try done. by rewrite app_nil_r.
  - destruct (step_outcome this K o free hs w Hinv)
      as (w1 & p1 & es1 & Hstep & Hinv1 & Hw1 & Hc1).
    destruct (stack_step this o (free, hs)) as [free1 hs1]; simpl in *.
    destruct (IH free1 hs1 w1 Hinv1)
      as (w2 & es2 & Hrun & Hinv2 & Htr & Hnext & Hframe & Hc2).
    exists w2, (es1 ++ es2).
    split; [by erewrite bind_Some by done|]. split; [done|].
    subst w1. simpl in *.
    split; [by rewrite Htr, app_assoc|]. split; [done|].
    split.
    + intros other Hne. rewrite Hframe by done. by apply lookup_insert_ne.
    + rewrite !count_events_app. lia.
Qed.

(** ** The constructor at the ends of its range *)

(** X1. For a capacity above [INT_MAX] the constructor completes no
    pool: on whatever slab the linking loop is run, and however long it is
    followed, its [int] counter meets [INT_MAX] with slots left to link,
    where the increment overflows. *)
Theorem linking_loop_overflows_beyond_int_max N this fuel blocks w :
  (INT_MAX < N)%Z →
  link_blocks fuel this N 1 blocks = None ∧
  SmartMemoryPool_ctor N w = None.
Proof.
  intros HN. split.
  - apply link_blocks_overflow; [|done]. unfold INT_MAX. lia.
  - by apply SmartMemoryPool_ctor_overflow.
Qed.

(** X2. A pool of capacity 0 is constructed with a head that points at
    slot 0 of an empty slab: its counter reads 0, its free list cannot be
    walked and [construct] on it has no defined result. *)
Theorem zero_capacity_pool_is_unusable w0 v :
  ∃ w,
    SmartMemoryPool_ctor 0 w0 = Some (next_pool w0, w) ∧
    available (next_pool w0) w = Some (0%Z, w) ∧
    free_slots (next_pool w0) w = None ∧
    construct (next_pool w0) v w = None.
Proof.
  eexists. split; [reflexivity|]. split; [|split].
  - unfold available, bind, get_pool; simpl. by rewrite lookup_insert_eq.
  - unfold free_slots; simpl. rewrite lookup_insert_eq; simpl.
    by rewrite decide_True.
  - unfold construct, allocate, mNextFree_load, bind, get_pool; simpl.
    rewrite lookup_insert_eq; simpl.
    unfold read_mNext, load_block, bind, get_pool; simpl.
    by rewrite lookup_insert_eq.
Qed.

(** ** What every reachable state satisfies *)

Lemma claimed_slots_lt this blocks hs i :
  Forall (handle_ok this blocks) hs →
  i ∈ claimed_slots hs → i < length blocks.
Proof.
  intros Hok (h & Hh & Hi)%list_elem_of_omap.
  rewrite Forall_forall in Hok. destruct (Hok h Hh) as [_ Hlive].
  destruct (get h) as [a|]; simpl in Hi; [|done]. injection Hi as <-.
  destruct (Hlive a eq_refl) as [_ [v Hv]]. by eapply lookup_lt_Some.
Qed.

(** X3. In every state a sequential client can reach, each slot of the
    slab is either on the free list or held through exactly one non-null
    handle: the free list followed by the held slots is a permutation of
    [0 .. K-1]. *)
Theorem slots_are_partitioned K w0 this w1 ops hs w :
  (0 < K)%Z →
  SmartMemoryPool_ctor K w0 = Some (this, w1) →
  run this ops [] w1 = Some (hs, w) →
  ∃ free,
    free_slots this w = Some free ∧
    free ++ claimed_slots hs ≡ₚ seq 0 (Z.to_nat K).
Proof.
  intros HK Hctor Hrun.
  destruct (reachable_inv K w0 this w1 ops hs w HK Hctor Hrun) as [free Hinv].
  exists free. split; [by eapply pool_inv_free_slots|].
  destruct Hinv as (p & _ & _ & Hwf). destruct Hwf.
  apply submseteq_length_Permutation.
  - apply NoDup_submseteq; [done|].
    intros i Hi. apply elem_of_seq.
    assert (i < length (mPool p)); [|lia].
    apply elem_of_app in Hi as [Hi|Hi];
      [by eapply chain_lt | by eapply claimed_slots_lt].
  - rewrite length_seq, length_app. lia.
Qed.

(** X4. Every non-null handle a sequential client holds addresses a slot
    of this pool's slab that holds a live value, and its deleter resolves
    to this pool. *)
Theorem held_handles_stay_valid K w0 this w1 ops hs w h a :
  (0 < K)%Z →
  SmartMemoryPool_ctor K w0 = Some (this, w1) →
  run this ops [] w1 = Some (hs, w) →
  h ∈ hs →
  get h = Some a →
  slab a = this ∧
  (slot a < Z.to_nat K) ∧
  lock (get_deleter h) w = Some (Some this, w) ∧
  ∃ p v, pools w !! this = Some p ∧
         mPool p !! slot a = Some (mStorage (Some v)).
Proof.
  intros HK Hctor Hrun Hh Hget.
  destruct (reachable_inv K w0 this w1 ops hs w HK Hctor Hrun) as [free Hinv].
  destruct Hinv as (p & Hp & _ & Hwf). destruct Hwf.
  rewrite Forall_forall in wf_handles0.
  destruct (wf_handles0 h Hh) as [Hd Hlive].
  destruct (Hlive a Hget) as [Hslab [v Hv]].
  split; [done|]. split.
  { rewrite <- wf_length0. by eapply lookup_lt_Some. }
  split; [|by exists p, v].
  rewrite Hd. by eapply lock_alive.
Qed.

(** X5. The pool refines a stack of slot numbers: after any sequence of
    operations of a sequential client, the handles it holds and the free
    list of the pool are those of the plain stack that [construct] pops
    and a release pushes, started with [0 .. K-1]. *)
Theorem run_refines_stack K w0 this w ops :
  (0 < K)%Z →
  SmartMemoryPool_ctor K w0 = Some (this, w) →
  ∃ w',
    run this ops [] w
    = Some ((stack_run this ops (seq 0 (Z.to_nat K), [])).2, w') ∧
    free_slots this w'
    = Some (stack_run this ops (seq 0 (Z.to_nat K), [])).1.
Proof.
  intros HK Hctor.
  destruct (SmartMemoryPool_ctor_inv K w0 this w HK Hctor) as (_ & _ & Hinv).
  destruct (run_outcome this K ops _ _ _ Hinv)
    as (w' & es & Hrun & Hinv' & _).
  exists w'. split; [done|]. by eapply pool_inv_free_slots.
Qed.

(** X6. [construct] returns a null handle only when every slot is held:
    in a reachable state its handle is null exactly if the client holds
    [K] non-null handles. *)
Theorem construct_fails_only_when_full K w0 this w1 ops hs w v :
  (0 < K)%Z →
  SmartMemoryPool_ctor K w0 = Some (this, w1) →
  run this ops [] w1 = Some (hs, w) →
  ∃ h w',
    construct this v w = Some (h, w') ∧
    (get h = None ↔ length (claimed_slots hs) = Z.to_nat K).
Proof.
  intros HK Hctor Hrun.
  destruct (reachable_inv K w0 this w1 ops hs w HK Hctor Hrun) as [free Hinv].
  pose proof (pool_inv_bound _ _ _ _ _ Hinv) as [Hsum _].
  destruct free as [|i free].
  - destruct (construct_keeps_inv_exhausted this K hs v w Hinv) as [Hc _].
    do 2 eexists. split; [exact Hc|]. simpl in *. split; [lia|done].
  - destruct (construct_keeps_inv_claim this K i free hs v w Hinv)
      as (w' & Hc & _).
    do 2 eexists. split; [exact Hc|]. simpl in *. split; [done|lia].
Qed.

(** ** How the operations compose *)

(** X7. When a non-null handle is released, the next [construct] returns
    the very address that was released. *)
Theorem released_slot_is_reused K w0 this w1 ops hs w k h a v :
  (0 < K)%Z →
  SmartMemoryPool_ctor K w0 = Some (this, w1) →
  run this ops [] w1 = Some (hs, w) →
  hs !! k = Some h →
  get h = Some a →
  ∃ w2 w3,
    unique_ptr_dtor h w = Some (tt, w2) ∧
    construct this v w2
    = Some ({| get := Some a; get_deleter := weak_this this |}, w3).
Proof.
  intros HK Hctor Hrun Hk Hget.
  destruct (reachable_inv K w0 this w1 ops hs w HK Hctor Hrun) as [free Hinv].
  destruct (release_keeps_inv this K free hs k h w Hinv Hk)
    as (w2 & wx & Hdtor & _ & Hinv2 & _ & Hw2).
  rewrite Hget in Hinv2, Hw2. simpl in Hinv2.
  destruct Hw2 as (_ & _ & _ & Hslab & _).
  destruct (construct_keeps_inv_claim this K _ _ _ v w2 Hinv2)
    as (w3 & Hc & _).
  exists w2, w3. split; [done|]. rewrite Hc.
  destruct a as [sl i]; simpl in *. by subst sl.
Qed.

(** X8. On a pool with a free slot, [construct] followed by the release
    of the handle it returned is a round trip: the destructor runs on the
    value that was constructed, in the slot that headed the free list, and
    the free list and the counter are again what they were. *)
Theorem construct_release_round_trip K w0 this w1 ops hs w i free v :
  (0 < K)%Z →
  SmartMemoryPool_ctor K w0 = Some (this, w1) →
  run this ops [] w1 = Some (hs, w) →
  free_slots this w = Some (i :: free) →
  ∃ h w2 w3 head next n,
    construct this v w = Some (h, w2) ∧
    get h = Some (Addr this i) ∧
    unique_ptr_dtor h w2 = Some (tt, w3) ∧
    trace w3 = trace w ++
      [Ev_compare_exchange this head next;
       Ev_fetch_sub this;
       Ev_construct (Addr this i) v;
       Ev_destroy_B (Addr this i) v;
       Ev_compare_exchange this next head;
       Ev_fetch_add this] ∧
    free_slots this w3 = Some (i :: free) ∧
    available this w = Some (n, w) ∧
    available this w3 = Some (n, w3).
Proof.
  intros HK Hctor Hrun Hfree.
  destruct (reachable_inv K w0 this w1 ops hs w HK Hctor Hrun)
    as [free0 Hinv].
  rewrite (pool_inv_free_slots _ _ _ _ _ Hinv) in Hfree.
  injection Hfree as ->.
  destruct (construct_keeps_inv_claim this K i free hs v w Hinv)
    as (w2 & Hc & Hinv2).
  pose proof Hinv as (p & Hp & _ & Hwf). destruct Hwf.
  apply chain_head_inv in wf_chain0 as (Hhead & b & next & Hb & Hnext & _).
  assert (construct this v w
          = Some (handle_at this i,
                  evolve this (claimed (Addr this i) next v p)
                    [Ev_compare_exchange this (Some (Addr this i)) next;
                     Ev_fetch_sub this;
                     Ev_construct (Addr this i) v] w)) as Hexplicit
    by by eapply construct_claim.
  rewrite Hexplicit in Hc. injection Hc as <-.
  set (w2 := evolve _ _ _ w) in *.
  assert ((hs ++ [handle_at this i]) !! length hs = Some (handle_at this i))
    as Hk by by rewrite lookup_app_r, Nat.sub_diag.
  destruct (release_keeps_inv this K free _ _ _ w2 Hinv2 Hk)
    as (w3 & wx & Hdtor & _ & Hinv3 & _ & Hw3).
  simpl in Hinv3, Hw3.
  destruct Hw3 as (p2 & v2 & Hp2 & _ & Hv2 & -> & _).
  rewrite lookup_insert_eq in Hp2. injection Hp2 as <-.
  simpl in Hv2. rewrite list_lookup_insert_eq in Hv2
    by by eapply lookup_lt_Some.
  injection Hv2 as <-.
  exists (handle_at this i), w2. eexists.
  exists (Some (Addr this i)), next, (Z.of_nat (length (i :: free))).
  split; [done|]. split; [done|]. split; [exact Hdtor|].
  split; [simpl; by rewrite <- app_assoc|].
  split; [by eapply pool_inv_free_slots|].
  destruct Hinv3 as (p3 & Hp3 & _ & Hwf3). destruct Hwf3.
  unfold available, bind, get_pool. rewrite Hp, Hp3; simpl.
  by rewrite wf_avail0, wf_avail1.
Qed.

(** X9. Constructing a pool and running any sequence of operations on it
    leaves every other pool of the world as it was. *)
Theorem other_pools_are_untouched K w0 this w1 ops hs w other :
  (0 < K)%Z →
  SmartMemoryPool_ctor K w0 = Some (this, w1) →
  run this ops [] w1 = Some (hs, w) →
  other ≠ this →
  pools w !! other = pools w0 !! other.
Proof.
  intros HK Hctor Hrun Hne.
  destruct (SmartMemoryPool_ctor_inv K w0 this w1 HK Hctor)
    as (Hmax & _ & Hinv).
  destruct (run_outcome this K ops _ _ _ Hinv)
    as (w' & es & Hrun' & _ & _ & _ & Hframe & _).
  rewrite Hrun in Hrun'. injection Hrun' as _ <-.
  rewrite Hframe by done.
  destruct (SmartMemoryPool_ctor_spec K w0) as (p & Heq & _); [done|].
  rewrite Heq in Hctor. injection Hctor as <- <-. simpl.
  by apply lookup_insert_ne.
Qed.

(** X10. While the pool is alive the constructor and destructor calls
    balance: in the history since the pool was built, the values
    constructed are as many as the values destroyed plus the non-null
    handles still held. *)
Theorem constructed_is_destroyed_plus_held K w0 this w1 ops hs w :
  (0 < K)%Z →
  SmartMemoryPool_ctor K w0 = Some (this, w1) →
  run this ops [] w1 = Some (hs, w) →
  ∃ es,
    trace w = trace w0 ++ es ∧
    count_events is_construct es
    = count_events is_destroy es + length (claimed_slots hs).
Proof.
  intros HK Hctor Hrun.
  destruct (SmartMemoryPool_ctor_inv K w0 this w1 HK Hctor)
    as (_ & Htr & Hinv).
  destruct (run_outcome this K ops _ _ _ Hinv)
    as (w' & es & Hrun' & _ & Htr' & _ & _ & Hc).
  rewrite Hrun in Hrun'. injection Hrun' as Hhs <-.
  exists es. split; [by rewrite Htr', Htr|].
  rewrite <- Hhs in Hc. simpl in Hc. lia.
Qed.

(** ** Misuse and teardown *)

Lemma drop_all_expired this hs w :
  pools w !! this = None →
  Forall (λ h, get_deleter h = weak_this this) hs →
  drop_all hs w = Some (tt, w).
Proof.
  intros Hdead. induction 1 as [|h hs Hh _ IH]; simpl; [done|].
  erewrite bind_Some; [exact IH|].
  unfold unique_ptr_dtor. destruct (get h); [|done].
  apply SmartDeleter_call_expired. by rewrite Hh.
Qed.

Lemma construct_without_pool this v w :
  pools w !! this = None → construct this v w = None.
Proof.
  intros Hdead.
  unfold construct, allocate, mNextFree_load, bind, get_pool.
  by rewrite Hdead.
Qed.

(** X11. Destroying the pool while handles are out runs no destructor,
    and none runs later: letting all the handles go afterwards leaves the
    world unchanged, so the values they held are never destroyed.  The
    pool itself can no longer be used. *)
Theorem pool_destruction_abandons_values K w0 this w1 ops hs w v :
  (0 < K)%Z →
  SmartMemoryPool_ctor K w0 = Some (this, w1) →
  run this ops [] w1 = Some (hs, w) →
  ∃ w',
    SmartMemoryPool_dtor this w = Some (tt, w') ∧
    trace w' = trace w ∧
    drop_all hs w' = Some (tt, w') ∧
    construct this v w' = None ∧
    available this w' = None.
Proof.
  intros HK Hctor Hrun.
  destruct (reachable_inv K w0 this w1 ops hs w HK Hctor Hrun) as [free Hinv].
  destruct Hinv as (p & Hp & _ & Hwf). destruct Hwf.
  eexists. split.
  { unfold SmartMemoryPool_dtor, bind, get_pool. by rewrite Hp. }
  split; [done|].
  assert (∀ ps n t,
            pools ({| pools := delete this ps; next_pool := n; trace := t |}
                   : World V) !! this = None) as Hdead
    by (intros; apply lookup_delete_eq).
  split; [|split].
  - apply (drop_all_expired this); [apply Hdead|].
    eapply Forall_impl; [exact wf_handles0|]. by intros h [Hd _].
  - apply construct_without_pool, Hdead.
  - unfold available, bind, get_pool. by rewrite Hdead.
Qed.

Lemma free_list_cycle this (blocks : list (MemoryBlock V)) a :
  slab a = this →
  blocks !! slot a = Some (mNext (Some a)) →
  ∀ fuel, free_list fuel this blocks (Some a) = None.
Proof.
  intros Hslab Hself fuel. induction fuel as [|fuel IH]; simpl; [done|].
  rewrite decide_True by done. by rewrite Hself; simpl; rewrite IH.
Qed.

Lemma construct_on_value this p a x v w :
  pools w !! this = Some p →
  mNextFree p = Some a →
  slab a = this →
  mPool p !! slot a = Some (mStorage x) →
  construct this v w = None.
Proof.
  intros Hp Hhead Hslab Hb.
  unfold construct, allocate, mNextFree_load, bind at 1 2 3, get_pool.
  rewrite Hp; simpl. rewrite Hhead; simpl.
  unfold read_mNext, load_block, bind, get_pool.
  rewrite Hslab, Hp; simpl. by rewrite Hb.
Qed.

(** X12. A double release is not detected.  [deallocate] accepts the same
    slot twice: the slot then links to itself, the free list is a cycle
    and the counter has counted the slot twice.  The next [construct]
    hands the slot out and leaves it as the head, so that any further
    [construct] has no defined result. *)
Theorem double_release_goes_undetected this p a v w :
  pools w !! this = Some p →
  slab a = this →
  slot a < length (mPool p) →
  ∃ w1 p1 w2,
    (deallocate this (Some a) ;; deallocate this (Some a)) w = Some (tt, w1) ∧
    pools w1 !! this = Some p1 ∧
    mNextFree p1 = Some a ∧
    mPool p1 !! slot a = Some (mNext (Some a)) ∧
    mAvailable p1
    = ((((mAvailable p + 1) mod UINT64_MOD) + 1) mod UINT64_MOD)%Z ∧
    free_slots this w1 = None ∧
    construct this v w1
    = Some ({| get := Some a; get_deleter := weak_this this |}, w2) ∧
    ∀ v', construct this v' w2 = None.
Proof.
  intros Hp Hslab Hlt.
  assert (mPool (pushed a (pushed a p)) !! slot a = Some (mNext (Some a)))
    as Hself.
  { simpl. apply list_lookup_insert_eq. by rewrite length_insert. }
  do 3 eexists. split.
  { erewrite bind_Some by by apply deallocate_push.
    apply deallocate_push; [apply evolve_lookup|done|].
    simpl. by rewrite length_insert. }
  split; [apply evolve_lookup|]. split; [done|]. split; [exact Hself|].
  split; [done|]. split.
  { unfold free_slots. rewrite evolve_lookup. by apply free_list_cycle. }
  split.
  { eapply construct_claim; [apply evolve_lookup|done|done|exact Hself|done]. }
  intros v'. eapply construct_on_value; [apply evolve_lookup|done|done|].
  simpl. apply list_lookup_insert_eq. by rewrite !length_insert.
Qed.

End Properties.

(** * The scenarios evaluated *)

(** C1, as stated, fails: the handle holds the non-null address of the
    value 5, its pool has been destroyed, and the deleter leaves the world
    as it is: no call of it ends in a world whose history has the
    destructor of that value. *)
Lemma deleter_skips_destructor_without_pool :
  orphan_scenario empty_world = Some (orphan_handle, orphan_world) ∧
  get orphan_handle = Some (Addr 0 0) ∧
  SmartDeleter_call (get_deleter orphan_handle) (get orphan_handle) orphan_world
  = Some (tt, orphan_world) ∧
  count_events (is_destroy_of (Addr 0 0)) (trace orphan_world) = 0 ∧
  ¬ ∃ v w',
      SmartDeleter_call (get_deleter orphan_handle) (get orphan_handle)
        orphan_world = Some (tt, w') ∧
      Ev_destroy (Addr 0 0) v ∈ trace w'.
Proof.
  assert (SmartDeleter_call (get_deleter orphan_handle) (get orphan_handle)
            orphan_world = Some (tt, orphan_world)) as Hcall
    by (vm_compute; reflexivity).
  split; [vm_compute; reflexivity|]. split; [reflexivity|].
  split; [exact Hcall|]. split; [reflexivity|].
  intros (v & w' & Hrun & Hin). rewrite Hcall in Hrun.
  injection Hrun as <-. simpl in Hin.
  repeat (apply elem_of_cons in Hin as [Hin|Hin]; [discriminate|]).
  by apply elem_of_nil in Hin.
Qed.


Example fresh_pair_constructed :
  SmartMemoryPool_ctor 2 empty_world = Some (0, one_pool fresh_pair []).
Proof. vm_compute. reflexivity. Qed.

Example full_pair_reached :
  run 0 [Construct 5%Z; Construct 7%Z] [] (one_pool fresh_pair [])
  = Some ([handle_at 0 0; handle_at 0 1], one_pool full_pair full_pair_trace).
Proof. vm_compute. reflexivity. Qed.

(** The scenario of the specification: capacity 2; 5 and 7 are
    constructed, a third [construct] fails, the first handle is released,
    9 is constructed in its slot, and after all releases two slots are
    available. *)
Example specification_scenario :
  ∃ w,
    bind (SmartMemoryPool_ctor 2) (λ this,
    bind (construct this 5%Z) (λ a,
    bind (construct this 7%Z) (λ b,
    bind (construct this 9%Z) (λ c,
    bind (unique_ptr_dtor a) (λ _,
    bind (construct this 9%Z) (λ d,
    bind (unique_ptr_dtor b) (λ _,
    bind (unique_ptr_dtor c) (λ _,
    bind (unique_ptr_dtor d) (λ _,
    bind (available this) (λ n,
    ret (get a, get b, get c, get d, n))))))))))) empty_world
    = Some ((Some (Addr 0 0), Some (Addr 0 1), None, Some (Addr 0 0), 2%Z), w).
Proof. eexists. vm_compute. reflexivity. Qed.

(** ** Instances of the theorems *)

Lemma deleter_acts_iff_pool_alive_witness :
  get orphan_handle = Some (Addr 0 0) ∧
  SmartDeleter_call (get_deleter orphan_handle) (get orphan_handle) orphan_world
  = Some (tt, orphan_world) ∧
  SmartDeleter_call (get_deleter (handle_at 0 1)) (get (handle_at 0 1))
    (one_pool full_pair [])
  = Some (tt, evolve 0 (pushed (Addr 0 1) full_pair)
                [Ev_destroy (Addr 0 1) 7%Z;
                 Ev_compare_exchange 0 None (Some (Addr 0 1));
                 Ev_fetch_add 0] (one_pool full_pair [])).
Proof.
  split; [reflexivity|]. split.
  - apply (deleter_acts_iff_pool_alive orphan_handle (Addr 0 0) orphan_world);
      reflexivity.
  - exact (proj2 (deleter_acts_iff_pool_alive (handle_at 0 1) (Addr 0 1)
                    (one_pool full_pair []) eq_refl)
             full_pair 7%Z eq_refl eq_refl eq_refl).
Defined.


Lemma free_list_is_lifo_witness :
  ∃ w',
    bind (deallocate 0 (Some (Addr 0 0))) (λ _,
    bind (deallocate 0 (Some (Addr 0 1))) (λ _,
    bind (deallocate 0 (Some (Addr 0 2))) (λ _,
    bind (allocate 0) (λ x,
    bind (allocate 0) (λ y,
    bind (allocate 0) (λ z,
    ret [x; y; z])))))) (one_pool full_triple [])
    = Some ([Some (Addr 0 2); Some (Addr 0 1); Some (Addr 0 0)], w').
Proof.
  destruct (free_list_is_lifo 0 full_triple (Addr 0 0) (Addr 0 1) (Addr 0 2)
              (one_pool full_triple []))
    as (w' & p' & Hrun & _);
    [reflexivity | reflexivity | reflexivity | reflexivity
     | simpl; lia | simpl; lia | simpl; lia
     | discriminate | discriminate | discriminate |].
  exists w'. exact Hrun.
Defined.

Lemma capacity_bound_witness :
  free_slots 0 (one_pool fresh_pair []) = Some [0; 1] ∧
  available 0 (one_pool fresh_pair []) = Some (2%Z, one_pool fresh_pair []) ∧
  ∃ w',
    run 0 [Construct 5%Z; Construct 7%Z] [] (one_pool fresh_pair [])
    = Some ([handle_at 0 0; handle_at 0 1], w') ∧
    construct 0 9%Z w' = Some (null_handle 0, w').
Proof.
  destruct (capacity_bound 2 empty_world 0 (one_pool fresh_pair [])
              [5%Z; 7%Z] 9%Z)
    as (H1 & H2 & H3 & _);
    [lia | vm_compute; reflexivity | reflexivity |].
  split; [exact H1|]. split; [exact H2|exact H3].
Defined.

Lemma available_tracks_claimed_witness :
  ∃ hs w',
    run 0 [Construct 5%Z; Construct 7%Z; Construct 9%Z; Release 0; Destruct 0]
      [] (one_pool fresh_pair [])
    = Some (hs, w') ∧
    available 0 w' = Some ((2 - Z.of_nat (length (claimed_slots hs)))%Z, w').
Proof.
  destruct (available_tracks_claimed 2 empty_world 0 (one_pool fresh_pair [])
              [Construct 5%Z; Construct 7%Z; Construct 9%Z; Release 0; Destruct 0])
    as (hs & w' & Hrun & Hav & _);
    [lia | vm_compute; reflexivity |].
  exists hs, w'. split; [exact Hrun|exact Hav].
Defined.

Lemma counter_follows_free_list_witness :
  deallocate 0 (Some (Addr 0 1)) (one_pool full_pair [])
  = Some (tt, evolve 0 (pushed (Addr 0 1) full_pair)
                [Ev_compare_exchange 0 None (Some (Addr 0 1));
                 Ev_fetch_add 0] (one_pool full_pair [])) ∧
  construct 0 5%Z (one_pool fresh_pair [])
  = Some (handle_at 0 0,
          evolve 0 (claimed (Addr 0 0) (Some (Addr 0 1)) 5%Z fresh_pair)
            [Ev_compare_exchange 0 (Some (Addr 0 0)) (Some (Addr 0 1));
             Ev_fetch_sub 0;
             Ev_construct (Addr 0 0) 5%Z] (one_pool fresh_pair [])).
Proof.
  split.
  - apply (counter_follows_free_list 0 full_pair (one_pool full_pair []));
      [reflexivity | reflexivity | simpl; lia].
  - apply (counter_follows_free_list 0 fresh_pair (one_pool fresh_pair [])
             eq_refl) with (b := mNext (Some (Addr 0 1))); reflexivity.
Defined.

Lemma null_handle_is_harmless_witness :
  ∃ h,
    construct 0 9%Z (one_pool full_pair []) = Some (h, one_pool full_pair []) ∧
    get h = None ∧
    mParentPool (get_deleter h) = 0 ∧
    unique_ptr_dtor h orphan_world = Some (tt, orphan_world) ∧
    destruct_unique_ptr 0 h (one_pool full_pair [])
    = Some (tt, one_pool full_pair []).
Proof.
  destruct (null_handle_is_harmless 0 full_pair 9%Z (one_pool full_pair []))
    as (h & Hrun & Hget & Hbound & _ & Hsafe); [reflexivity | reflexivity |].
  exists h. split; [exact Hrun|]. split; [exact Hget|]. split; [exact Hbound|].
  split; [apply (Hsafe orphan_world 0) | apply (Hsafe (one_pool full_pair []) 0)].
Defined.

Lemma destruct_ptr_null_and_live_witness :
  destruct_ptr 0 None (one_pool full_pair []) = Some (tt, one_pool full_pair []) ∧
  destruct_ptr 0 (Some (Addr 0 1)) (one_pool full_pair [])
  = Some (tt, evolve 0 (pushed (Addr 0 1) full_pair)
                [Ev_destroy (Addr 0 1) 7%Z;
                 Ev_compare_exchange 0 None (Some (Addr 0 1));
                 Ev_fetch_add 0] (one_pool full_pair [])).
Proof.
  destruct (destruct_ptr_null_and_live 0 (one_pool full_pair []))
    as (Hnull & _ & Hlive).
  split; [exact Hnull|].
  apply (Hlive (Addr 0 1) full_pair 7%Z); reflexivity.
Defined.

Lemma construct_failure_is_atomic_witness :
  construct 0 9%Z (one_pool full_pair [])
  = Some (null_handle 0, one_pool full_pair []) ∧
  ∃ p, pools (one_pool full_pair []) !! 0 = Some p ∧ mNextFree p = None.
Proof.
  assert (construct 0 9%Z (one_pool full_pair [])
          = Some (null_handle 0, one_pool full_pair [])) as Hrun
    by (vm_compute; reflexivity).
  split; [exact Hrun|].
  apply (construct_failure_is_atomic 0 9%Z (one_pool full_pair [])
           (null_handle 0) (one_pool full_pair []) Hrun eq_refl).
Defined.

Lemma destruct_handle_exactly_once_witness :
  ∃ es w',
    destruct_unique_ptr 0 (handle_at 0 1) (one_pool full_pair full_pair_trace)
    = Some (tt, w') ∧
    trace w' = full_pair_trace ++ es ∧
    count_events (is_destroy_of (Addr 0 1)) es = 1 ∧
    count_events (is_push_of 0 (Addr 0 1)) es = 1.
Proof.
  destruct (destruct_handle_exactly_once 0 full_pair (handle_at 0 1)
              (Addr 0 1) 7%Z (one_pool full_pair full_pair_trace))
    as (es & w' & Hrun & Htrace & Hd & Hp & _);
    [reflexivity | reflexivity | reflexivity | reflexivity |].
  exists es, w'. split; [exact Hrun|]. split; [exact Htrace|].
  split; [exact Hd|exact Hp].
Defined.

(** ** Instances of the further properties *)

Lemma linking_loop_overflows_beyond_int_max_witness :
  link_blocks (Z.to_nat 2147483648) 0 2147483648 1
    (replicate (Z.to_nat 2147483648) (Zeroed (V := Z))) = None ∧
  SmartMemoryPool_ctor 2147483648 (empty_world (V := Z)) = None.
Proof.
  apply (linking_loop_overflows_beyond_int_max 2147483648 0
           (Z.to_nat 2147483648) (replicate (Z.to_nat 2147483648) Zeroed)
           empty_world).
  unfold INT_MAX. lia.
Defined.

Lemma slots_are_partitioned_witness :
  ∃ free,
    free_slots 0 (one_pool full_pair full_pair_trace) = Some free ∧
    free ++ claimed_slots [handle_at 0 0; handle_at 0 1] ≡ₚ seq 0 (Z.to_nat 2).
Proof.
  apply (slots_are_partitioned 2 empty_world 0 (one_pool fresh_pair [])
           [Construct 5%Z; Construct 7%Z]);
    [lia | vm_compute; reflexivity | vm_compute; reflexivity].
Defined.

Lemma held_handles_stay_valid_witness :
  slab (Addr 0 1) = 0 ∧
  (slot (Addr 0 1) < Z.to_nat 2) ∧
  lock (get_deleter (handle_at 0 1)) (one_pool full_pair full_pair_trace)
  = Some (Some 0, one_pool full_pair full_pair_trace) ∧
  ∃ p v, pools (one_pool full_pair full_pair_trace) !! 0 = Some p ∧
         mPool p !! slot (Addr 0 1) = Some (mStorage (Some v)).
Proof.
  apply (held_handles_stay_valid 2 empty_world 0 (one_pool fresh_pair [])
           [Construct 5%Z; Construct 7%Z] [handle_at 0 0; handle_at 0 1]);
    [lia | vm_compute; reflexivity | vm_compute; reflexivity
     | apply list_elem_of_further, list_elem_of_here | reflexivity].
Defined.

Lemma run_refines_stack_witness :
  ∃ w',
    run 0 [Construct 5%Z; Construct 7%Z; Release 0; Construct 9%Z] []
      (one_pool fresh_pair [])
    = Some ([handle_at 0 1; handle_at 0 0], w') ∧
    free_slots 0 w' = Some [].
Proof.
  apply (run_refines_stack 2 empty_world 0 (one_pool fresh_pair [])
           [Construct 5%Z; Construct 7%Z; Release 0; Construct 9%Z]);
    [lia | vm_compute; reflexivity].
Defined.

Lemma construct_fails_only_when_full_witness :
  ∃ h w',
    construct 0 9%Z (one_pool full_pair full_pair_trace) = Some (h, w') ∧
    (get h = None
     ↔ length (claimed_slots [handle_at 0 0; handle_at 0 1]) = Z.to_nat 2).
Proof.
  apply (construct_fails_only_when_full 2 empty_world 0
           (one_pool fresh_pair []) [Construct 5%Z; Construct 7%Z]);
    [lia | vm_compute; reflexivity | vm_compute; reflexivity].
Defined.

Lemma released_slot_is_reused_witness :
  ∃ w2 w3,
    unique_ptr_dtor (handle_at 0 0) (one_pool full_pair full_pair_trace)
    = Some (tt, w2) ∧
    construct 0 9%Z w2
    = Some ({| get := Some (Addr 0 0); get_deleter := weak_this 0 |}, w3).
Proof.
  apply (released_slot_is_reused 2 empty_world 0 (one_pool fresh_pair [])
           [Construct 5%Z; Construct 7%Z] [handle_at 0 0; handle_at 0 1]
           (one_pool full_pair full_pair_trace) 0);
    [lia | vm_compute; reflexivity | vm_compute; reflexivity
     | reflexivity | reflexivity].
Defined.

Lemma construct_release_round_trip_witness :
  ∃ h w2 w3 head next n,
    construct 0 5%Z (one_pool fresh_pair []) = Some (h, w2) ∧
    get h = Some (Addr 0 0) ∧
    unique_ptr_dtor h w2 = Some (tt, w3) ∧
    trace w3 = trace (one_pool fresh_pair []) ++
      [Ev_compare_exchange 0 head next;
       Ev_fetch_sub 0;
       Ev_construct (Addr 0 0) 5%Z;
       Ev_destroy (Addr 0 0) 5%Z;
       Ev_compare_exchange 0 next head;
       Ev_fetch_add 0] ∧
    free_slots 0 w3 = Some [0; 1] ∧
    available 0 (one_pool fresh_pair []) = Some (n, one_pool fresh_pair []) ∧
    available 0 w3 = Some (n, w3).
Proof.
  exact (construct_release_round_trip 2 empty_world 0 (one_pool fresh_pair [])
           [] [] (one_pool fresh_pair []) 0 [1] 5%Z
           ltac:(lia) ltac:(vm_compute; reflexivity) eq_refl
           ltac:(vm_compute; reflexivity)).
Defined.

Lemma other_pools_are_untouched_witness :
  pools (one_pool fresh_pair []) !! 0 = Some fresh_pair ∧
  pools (two_pools fresh_pair full_pair second_trace) !! 0
  = pools (one_pool fresh_pair []) !! 0.
Proof.
  split; [reflexivity|].
  apply (other_pools_are_untouched 2 (one_pool fresh_pair []) 1
           (two_pools fresh_pair second_fresh [])
           [Construct 5%Z; Construct 7%Z] [handle_at 1 0; handle_at 1 1]);
    [lia | vm_compute; reflexivity | vm_compute; reflexivity | lia].
Defined.

Lemma constructed_is_destroyed_plus_held_witness :
  ∃ es,
    trace (one_pool full_pair full_pair_trace)
    = trace (empty_world (V := Z)) ++ es ∧
    count_events is_construct es
    = count_events is_destroy es
      + length (claimed_slots [handle_at 0 0; handle_at 0 1]).
Proof.
  apply (constructed_is_destroyed_plus_held 2 empty_world 0
           (one_pool fresh_pair []) [Construct 5%Z; Construct 7%Z]);
    [lia | vm_compute; reflexivity | vm_compute; reflexivity].
Defined.

Lemma pool_destruction_abandons_values_witness :
  ∃ w',
    SmartMemoryPool_dtor 0 (one_pool full_pair full_pair_trace) = Some (tt, w') ∧
    trace w' = trace (one_pool full_pair full_pair_trace) ∧
    drop_all [handle_at 0 0; handle_at 0 1] w' = Some (tt, w') ∧
    construct 0 9%Z w' = None ∧
    available 0 w' = None.
Proof.
  apply (pool_destruction_abandons_values 2 empty_world 0
           (one_pool fresh_pair []) [Construct 5%Z; Construct 7%Z]);
    [lia | vm_compute; reflexivity | vm_compute; reflexivity].
Defined.

Lemma double_release_goes_undetected_witness :
  ∃ w1 p1 w2,
    bind (deallocate 0 (Some (Addr 0 0)))
      (λ _, deallocate 0 (Some (Addr 0 0))) (one_pool full_pair [])
    = Some (tt, w1) ∧
    pools w1 !! 0 = Some p1 ∧
    mNextFree p1 = Some (Addr 0 0) ∧
    mPool p1 !! slot (Addr 0 0) = Some (mNext (Some (Addr 0 0))) ∧
    mAvailable p1
    = ((((mAvailable full_pair + 1) mod UINT64_MOD) + 1) mod UINT64_MOD)%Z ∧
    free_slots 0 w1 = None ∧
    construct 0 9%Z w1
    = Some ({| get := Some (Addr 0 0); get_deleter := weak_this 0 |}, w2) ∧
    ∀ v', construct 0 v' w2 = None.
Proof.
  apply (double_release_goes_undetected 0 full_pair (Addr 0 0) 9%Z
           (one_pool full_pair []));
    [reflexivity | reflexivity | simpl; lia].
Defined.


